(** * iron-session: sealed, cookie-backed session storage

    A shallow embedding of [src/index.ts] (classes [IronStore] and
    [IronSession] with their helper functions) and the properties of the
    sealed-session lifecycle proved about it.

    Modelling conventions.
    - JavaScript numbers that the code handles (time-to-live, max-age, clock
      readings) are integers in the exactly representable range and are
      modelled as [Z]; [NaN] and fractions are outside the model.
    - Strings are [string]; the [length] of a string counts its characters.
    - A JavaScript object used as a dictionary is a [gmap string _] of its own
      properties, read through its prototype: the members of
      [Object.prototype] are visible under their names on every plain
      object, and an assignment to [__proto__] goes to the accessor of
      [Object.prototype], not to an own property. [Object.prototype] is the
      one of a fresh realm (nothing has been added to it or removed). The
      numeric-looking property name in [{ 1: secret }] is the string key
      "1", as property names of JavaScript objects are strings.
    - Thrown values are explicit: every operation returns an [outcome].
    - [clone] is the identity: values of the embedding are immutable, so
      no aliasing between the bag and the values handed in or out exists.
    - The sealing primitive ([Iron.seal], [Iron.unseal], [Iron.defaults]) and
      the cookie codec ([cookie.serialize], [cookie.parse]) are external
      collaborators; they are parameters of the development. *)

From Stdlib Require Import ZArith String Ascii List.
From stdpp Require Import base decidable option list gmap strings pretty countable.

Local Open Scope string_scope.
Local Open Scope Z_scope.
Local Open Scope list_scope.

(** ** Thrown values and outcomes *)

(** What a [throw] can carry, as far as this code can observe it: an
    [Error]-like object with a string [message]; a value with no string
    [message] property ([Unmessaged]); and the [TypeError] that JavaScript
    itself raises on a property access or call that is not possible. *)
Inductive exn : Type :=
  | Error (message : string)
  | Unmessaged
  | TypeError.

Inductive outcome (A : Type) : Type :=
  | Ret (a : A)
  | Throw (e : exn).
Arguments Ret {A} a.
Arguments Throw {A} e.

#[global] Instance outcome_ret : MRet outcome := λ A a, Ret a.

#[global] Instance outcome_bind : MBind outcome := λ A B k m,
  match m with
  | Ret a => k a
  | Throw e => Throw e
  end.

#[global] Instance exn_eq_dec : EqDecision exn.
Proof. solve_decision. Defined.

#[global] Instance outcome_eq_dec {A} `{EqDecision A} : EqDecision (outcome A).
Proof. solve_decision. Defined.

(** ** Property access on plain objects *)

(** The property names of [Object.prototype]. *)
Definition object_prototype_names : list string :=
  [ "__proto__"; "constructor"; "hasOwnProperty"; "isPrototypeOf";
    "propertyIsEnumerable"; "toLocaleString"; "toString"; "valueOf";
    "__defineGetter__"; "__defineSetter__"; "__lookupGetter__";
    "__lookupSetter__" ].

Definition inherited_name (key : string) : bool :=
  bool_decide (key ∈ object_prototype_names).

(** What the read [object[key]] gives on a plain object: [undefined]; the
    value of an own property; or the member of [Object.prototype] of that
    name (a function, or [Object.prototype] itself for [__proto__]). *)
Inductive property (A : Type) : Type :=
  | Undefined
  | Own (a : A)
  | Inherited (name : string).
Arguments Undefined {A}.
Arguments Own {A} a.
Arguments Inherited {A} name.

(** What a read gives on the bag, whose prototype can have been replaced
    by a value: as on a plain object, or whatever the read of [key] on the
    replacing value gives. *)
Inductive bag_property (A : Type) : Type :=
  | Read (p : property A)
  | Through (prototype : A) (key : string).
Arguments Read {A} p.
Arguments Through {A} prototype key.

(** [object[key]] on a plain object (one whose prototype is
    [Object.prototype]) with the given own properties. *)
Definition read_property {A} (own : gmap string A) (key : string) : property A :=
  match own !! key with
  | Some a => Own a
  | None => if inherited_name key then Inherited key else Undefined
  end.

(** The prototype of the bag: [Object.prototype] for an object literal or
    a parsed one, [null], or a value of the bag's own that an assignment
    to [__proto__] has put in its place. *)
Inductive Prototype (A : Type) : Type :=
  | ObjectPrototype
  | NullPrototype
  | ValuePrototype (v : A).
Arguments ObjectPrototype {A}.
Arguments NullPrototype {A}.
Arguments ValuePrototype {A} v.

(** What an assignment to [__proto__] depends on in a value of the bag:
    whether it is an object, [null] or a primitive (the setter of
    [Object.prototype] takes the first two and ignores the third), and,
    for a value that has become the prototype of the bag, whether an
    assignment to [__proto__] behind it still reaches that setter (it does
    when the value inherits from [Object.prototype] and has no property
    [__proto__] of its own). *)
Inductive ValueKind : Type := Primitive | Null | Object.

Module JsValue.
Class t (Value : Type) : Type := {
  kind : Value → ValueKind;
  reaches_setter : Value → bool
}.
End JsValue.

(** ** Constants of the module *)

Definition TIMESTAMP_SKEW_SEC : Z := 60.
Definition MAX_TTL : Z := 2147483647.
Definition DEFAULT_TTL : Z := 30 * 24 * 60 * 60.
Definition MAX_COOKIE_SIZE : nat := 4096.

(** ** Password material *)

(** An element [{ id, secret }] of a password list; also the shape of
    [Iron.password.Secret], the seal-time password. *)
Record IdSecret : Type := { id : string; secret : string }.

#[global] Instance IdSecret_eq_dec : EqDecision IdSecret.
Proof. solve_decision. Defined.

(** [IronDenormalizedPassword = string | { id; secret }[]] *)
Inductive IronDenormalizedPassword : Type :=
  | PwString (s : string)
  | PwList (l : list IdSecret).

Abbreviation IronSealPassword := IdSecret.
(** [Iron.password.Hash]: an object from key id to secret. *)
Abbreviation IronUnsealPassword := (gmap string string).

(** [denormalized.length] is the number of characters of the string or
    the number of elements of the array. *)
Definition pw_length (denormalized : IronDenormalizedPassword) : nat :=
  match denormalized with
  | PwString s => String.length s
  | PwList l => List.length l
  end.

Definition empty_password_error : exn :=
  Error "Empty IronStore argument: `password`".

(** The tests of the source in their order: [!denormalized.length], then
    [typeof denormalized === 'string'], then the first element. *)
Definition normalizeSealPassword (denormalized : IronDenormalizedPassword)
  : outcome IronSealPassword :=
  match denormalized with
  | PwString "" | PwList [] => Throw empty_password_error
  | PwString s => Ret {| id := "1"; secret := s |}
  | PwList (first :: _) => Ret first
  end.

(** [normalized[id] = secret] on an object that has no own [__proto__]
    property: under the name [__proto__] the assignment reaches the setter
    of [Object.prototype], which ignores a string, so no entry is made. *)
Definition assign_secret (normalized : IronUnsealPassword) (e : IdSecret)
  : IronUnsealPassword :=
  if String.eqb (id e) "__proto__" then normalized
  else <[id e := secret e]> normalized.

(** The [for ... of] loop of [normalizeUnsealPassword]: one property
    assignment per element, in list order. *)
Definition assign_all (l : list IdSecret) (normalized : IronUnsealPassword)
  : IronUnsealPassword :=
  foldl assign_secret normalized l.

Definition normalizeUnsealPassword (denormalized : IronDenormalizedPassword)
  : outcome IronUnsealPassword :=
  match denormalized with
  | PwString "" | PwList [] => Throw empty_password_error
  | PwString s => Ret {[ "1" := s ]}
  | PwList l => Ret (assign_all l ∅)
  end.

(** ** Options of the external collaborators *)

(** [Iron.SealOptions]. The encryption and integrity settings that
    [Iron.defaults] also carries are passed through to the primitive as
    they are and are never read by this module; the numeric fields are the
    ones the session code sets or the seal's expiry depends on. [ttl] is in
    milliseconds, [timestampSkewSec] in seconds. *)
Module SealOptions.
Record t : Type := {
  ttl : Z;
  timestampSkewSec : Z;
  localtimeOffsetMsec : Z
}.
Definition with_ttl (o : t) (ms : Z) : t :=
  {| ttl := ms;
     timestampSkewSec := timestampSkewSec o;
     localtimeOffsetMsec := localtimeOffsetMsec o |}.
End SealOptions.

Inductive SameSite : Type := SameSiteTrue | SameSiteFalse | Lax | Strict | NoneSite.

(** [cookie.CookieSerializeOptions]; every attribute is optional. *)
Module CookieSerializeOptions.
Record t : Type := {
  domain : option string;
  expires : option Z;
  httpOnly : option bool;
  maxAge : option Z;
  path : option string;
  sameSite : option SameSite;
  secure : option bool
}.
Definition with_maxAge (o : t) (m : Z) : t :=
  {| domain := domain o; expires := expires o; httpOnly := httpOnly o;
     maxAge := Some m; path := path o; sameSite := sameSite o;
     secure := secure o |}.
(** Object spread [{ ...a, ...b }]: an attribute present in [b] wins. *)
Definition spread (a b : t) : t :=
  {| domain := match domain b with Some x => Some x | None => domain a end;
     expires := match expires b with Some x => Some x | None => expires a end;
     httpOnly := match httpOnly b with Some x => Some x | None => httpOnly a end;
     maxAge := match maxAge b with Some x => Some x | None => maxAge a end;
     path := match path b with Some x => Some x | None => path a end;
     sameSite := match sameSite b with Some x => Some x | None => sameSite a end;
     secure := match secure b with Some x => Some x | None => secure a end |}.
Definition none : t :=
  {| domain := None; expires := None; httpOnly := None; maxAge := None;
     path := None; sameSite := None; secure := None |}.
End CookieSerializeOptions.

(** [IronSessionOptions]; every option is optional. *)
Module IronSessionOptions.
Record t : Type := {
  cookieName : option string;
  cookieOptions : option CookieSerializeOptions.t;
  password : option IronDenormalizedPassword;
  ttl : option Z
}.
End IronSessionOptions.

(** ** The external collaborators *)

(** The sealing primitive, [@hapi/iron]. Both operations read the clock;
    the reading (milliseconds) is their first argument. The sealed object
    is the session bag, given by its own properties (the ones that are
    serialized); the unsealed one is a parsed object. [unseal_member] is
    [Iron.unseal] handed, in place of a token, the member of
    [Object.prototype] of the given name: the call the session code makes
    when the cookie it reads is an inherited property. *)
Module Iron.
Class t (Value : Type) : Type := {
  defaults : SealOptions.t;
  seal : Z → gmap string Value → IronSealPassword → SealOptions.t → outcome string;
  unseal : Z → string → IronUnsealPassword → SealOptions.t → outcome (gmap string Value);
  unseal_member :
    Z → string → IronUnsealPassword → SealOptions.t → outcome (gmap string Value)
}.
End Iron.

(** The cookie codec, [cookie]. *)
Module cookie.
Class t : Type := {
  serialize : string → string → CookieSerializeOptions.t → outcome string;
  parse : string → gmap string string
}.
End cookie.

(** ** Effects *)

(** An invocation of the sealing primitive, with its arguments. *)
Inductive IronCall (Value : Type) : Type :=
  | SealCall (now : Z) (object : gmap string Value)
             (pw : IronSealPassword) (options : SealOptions.t)
  | UnsealCall (now : Z) (sealed : string)
               (pw : IronUnsealPassword) (options : SealOptions.t)
  | UnsealMemberCall (now : Z) (name : string)
                     (pw : IronUnsealPassword) (options : SealOptions.t).
Arguments SealCall {Value} now object pw options.
Arguments UnsealCall {Value} now sealed pw options.
Arguments UnsealMemberCall {Value} now name pw options.

(** What running a method gives: its outcome, the object it was called on
    after the call, and the invocations of the primitive it made. *)
Record run (Value S A : Type) : Type := {
  result : outcome A;
  final : S;
  calls : list (IronCall Value)
}.
Arguments result {Value S A} _.
Arguments final {Value S A} _.
Arguments calls {Value S A} _.
Arguments Build_run {Value S A} result final calls.

(** ** IronStore *)

(** [unsealed] holds the own properties of the bag object, [prototype]
    its prototype. *)
Record IronStore (Value : Type) : Type := {
  unsealed : gmap string Value;
  prototype : Prototype Value;
  sealPassword : IronSealPassword;
  unsealPassword : IronUnsealPassword;
  sealOptions : SealOptions.t
}.
Arguments unsealed {Value} _.
Arguments prototype {Value} _.
Arguments sealPassword {Value} _.
Arguments unsealPassword {Value} _.
Arguments sealOptions {Value} _.
Arguments Build_IronStore {Value} unsealed prototype sealPassword unsealPassword
  sealOptions.

(** [this.unsealed = bag] for a fresh plain object [bag]: an object
    literal or the parsed payload. *)
Definition set_unsealed {Value} (st : IronStore Value) (bag : gmap string Value)
  : IronStore Value :=
  {| unsealed := bag;
     prototype := ObjectPrototype;
     sealPassword := sealPassword st;
     unsealPassword := unsealPassword st;
     sealOptions := sealOptions st |}.

(** [new IronStore(password, ttl)] *)
Definition new_IronStore {Value} `{!Iron.t Value}
    (password : IronDenormalizedPassword) (ttl : Z) : outcome (IronStore Value) :=
  sp ← normalizeSealPassword password;
  up ← normalizeUnsealPassword password;
  Ret {| unsealed := ∅;
         prototype := ObjectPrototype;
         sealPassword := sp;
         unsealPassword := up;
         sealOptions := SealOptions.with_ttl Iron.defaults (ttl * 1000) |}.

(** A change of the bag object in place: its own properties and its
    prototype. *)
Definition update_bag {Value} (st : IronStore Value) (own : gmap string Value)
    (proto : Prototype Value) : IronStore Value :=
  {| unsealed := own;
     prototype := proto;
     sealPassword := sealPassword st;
     unsealPassword := unsealPassword st;
     sealOptions := sealOptions st |}.

(** [this.unsealed[key]]: an own property, else what the prototype of the
    bag gives. *)
Definition store_get {Value} (st : IronStore Value) (key : string)
  : bag_property Value :=
  match unsealed st !! key with
  | Some v => Read (Own v)
  | None =>
      match prototype st with
      | ObjectPrototype => Read (if inherited_name key then Inherited key else Undefined)
      | NullPrototype => Read Undefined
      | ValuePrototype v => Through v key
      end
  end.

(** Whether an assignment to [__proto__] on the bag reaches the setter of
    [Object.prototype]. *)
Definition setter_reached {Value} `{!JsValue.t Value} (st : IronStore Value) : bool :=
  negb (bool_decide (is_Some (unsealed st !! "__proto__")))
  && match prototype st with
     | ObjectPrototype => true
     | NullPrototype => false
     | ValuePrototype v => JsValue.reaches_setter v
     end.

(** [this.unsealed[key] = value]. Under the name [__proto__], when the
    setter is reached, an object or [null] becomes the prototype of the
    bag and any other value is ignored; in every other case the own
    property is made or replaced. *)
Definition store_set {Value} `{!JsValue.t Value} (st : IronStore Value)
    (key : string) (value : Value) : IronStore Value :=
  if String.eqb key "__proto__" && setter_reached st
  then match JsValue.kind value with
       | Object => update_bag st (unsealed st) (ValuePrototype value)
       | Null => update_bag st (unsealed st) NullPrototype
       | Primitive => st
       end
  else update_bag st (<[key := value]> (unsealed st)) (prototype st).

(** [delete this.unsealed[key]] removes an own property only. *)
Definition store_unset {Value} (st : IronStore Value) (key : string) : IronStore Value :=
  update_bag st (delete key (unsealed st)) (prototype st).

Definition store_clear {Value} (st : IronStore Value) : IronStore Value :=
  set_unsealed st ∅.

Definition store_seal {Value} `{!Iron.t Value} (now : Z) (st : IronStore Value)
  : run Value (IronStore Value) string :=
  {| result := Iron.seal now (unsealed st) (sealPassword st) (sealOptions st);
     final := st;
     calls := [SealCall now (unsealed st) (sealPassword st) (sealOptions st)] |}.

(** The test of the [catch] clause of [unseal]: [true] when the error is
    rethrown. The three comparisons are evaluated left to right on
    [err.message]. *)
Definition rethrown (message : string) : bool :=
  negb (String.eqb message "Expired seal")
  && negb (String.eqb message "Bad hmac value")
  && negb (String.prefix "Cannot find password: " message).

Definition store_unseal {Value} `{!Iron.t Value} (now : Z) (sealed : string)
    (st : IronStore Value) : run Value (IronStore Value) bool :=
  let call := UnsealCall now sealed (unsealPassword st) (sealOptions st) in
  match Iron.unseal now sealed (unsealPassword st) (sealOptions st) with
  | Ret payload =>
      {| result := Ret true; final := set_unsealed st payload; calls := [call] |}
  | Throw (Error message) =>
      if rethrown message
      then {| result := Throw (Error message); final := st; calls := [call] |}
      else {| result := Ret false; final := st; calls := [call] |}
  | Throw Unmessaged =>
      (* [err.message] is not a string: the two [!==] hold and calling
         [startsWith] on it raises *)
      {| result := Throw TypeError; final := st; calls := [call] |}
  | Throw TypeError =>
      (* a [TypeError] has a message, which is none of the three *)
      {| result := Throw TypeError; final := st; calls := [call] |}
  end.

(** [unseal] when the value handed to it is the member of
    [Object.prototype] of the given name; the same [try] and [catch]. *)
Definition store_unseal_member {Value} `{!Iron.t Value} (now : Z) (name : string)
    (st : IronStore Value) : run Value (IronStore Value) bool :=
  let call := UnsealMemberCall now name (unsealPassword st) (sealOptions st) in
  match Iron.unseal_member now name (unsealPassword st) (sealOptions st) with
  | Ret payload =>
      {| result := Ret true; final := set_unsealed st payload; calls := [call] |}
  | Throw (Error message) =>
      if rethrown message
      then {| result := Throw (Error message); final := st; calls := [call] |}
      else {| result := Ret false; final := st; calls := [call] |}
  | Throw Unmessaged => {| result := Throw TypeError; final := st; calls := [call] |}
  | Throw TypeError => {| result := Throw TypeError; final := st; calls := [call] |}
  end.

(** ** Requests, responses, environment *)

(** The part of the request this module reads: the [cookies] property an
    upstream middleware may have set, and the request headers. *)
Record Request : Type := {
  cookies : option (gmap string string);
  headers : gmap string string
}.

(** What [getHeader] can return for a header that is set:
    [number | string | string[]]. *)
Inductive HeaderValue : Type :=
  | HNumber (n : Z)
  | HString (s : string)
  | HArray (l : list string).

#[global] Instance HeaderValue_eq_dec : EqDecision HeaderValue.
Proof. solve_decision. Defined.

(** The headers of the response, by lower-case name. [getHeader] is the
    lookup, [setHeader] the insertion. *)
Abbreviation Response := (gmap string HeaderValue).

(** [process.env] *)
Abbreviation Env := (gmap string string).

(** JavaScript truthiness of a string and of a header value. *)
Definition truthy_string (s : string) : bool := negb (String.eqb s "").

Definition truthy_header (v : HeaderValue) : bool :=
  match v with
  | HNumber n => negb (Z.eqb n 0)
  | HString s => truthy_string s
  | HArray _ => true
  end.

(** [[v].flat().map(String)] *)
Definition flat_strings (v : HeaderValue) : list string :=
  match v with
  | HNumber n => [pretty n]
  | HString s => [s]
  | HArray l => l
  end.

Definition setResponseCookie (res : Response) (serializedCookie : string) : Response :=
  let existingSetCookies :=
    match res !! "set-cookie" with
    | Some v => if truthy_header v then flat_strings v else []
    | None => []
    end in
  <["set-cookie" := HArray (existingSetCookies ++ [serializedCookie])]> res.

(** Both mappings are plain objects, read by [mapping[cookieName]]. *)
Definition getRequestCookie `{!cookie.t} (req : Request) (cookieName : string)
  : property string :=
  match cookies req with
  | Some parsed => read_property parsed cookieName
  | None =>
      let raw := match headers req !! "cookie" with
                 | Some h => if truthy_string h then h else ""
                 | None => ""
                 end in
      read_property (cookie.parse raw) cookieName
  end.

(** ** Resolution of the session options *)

Definition DEFAULT_COOKIE_OPTIONS (env : Env) : CookieSerializeOptions.t :=
  {| CookieSerializeOptions.domain := None;
     CookieSerializeOptions.expires := None;
     CookieSerializeOptions.httpOnly := Some true;
     CookieSerializeOptions.maxAge := None;
     CookieSerializeOptions.path := Some "/";
     CookieSerializeOptions.sameSite := Some Lax;
     CookieSerializeOptions.secure :=
       Some (bool_decide (env !! "NODE_ENV" = Some "production")) |}.

Definition getCookieName (env : Env) (sessionOptions : option IronSessionOptions.t)
  : outcome string :=
  let fromEnv :=
    match env !! "IRON_SESSION_COOKIE_NAME" with
    | Some envCookieName =>
        if truthy_string envCookieName then Ret envCookieName
        else Throw (Error "Missing IronSession option: `cookieName`")
    | None => Throw (Error "Missing IronSession option: `cookieName`")
    end in
  match sessionOptions ≫= IronSessionOptions.cookieName with
  | Some name => if negb (Nat.eqb (String.length name) 0) then Ret name else fromEnv
  | None => fromEnv
  end.

Definition getPassword (env : Env) (sessionOptions : option IronSessionOptions.t)
  : outcome IronDenormalizedPassword :=
  let fromEnv :=
    match env !! "IRON_SESSION_PASSWORD" with
    | Some envPassword =>
        if truthy_string envPassword then Ret (PwString envPassword)
        else Throw (Error "Missing IronSession option: `password`")
    | None => Throw (Error "Missing IronSession option: `password`")
    end in
  match sessionOptions ≫= IronSessionOptions.password with
  | Some pw => if negb (Nat.eqb (pw_length pw) 0) then Ret pw else fromEnv
  | None => fromEnv
  end.

(** [sessionOptions?.ttl ?? DEFAULT_TTL] *)
Definition resolved_ttl (sessionOptions : option IronSessionOptions.t) : Z :=
  match sessionOptions ≫= IronSessionOptions.ttl with
  | Some ttl => ttl
  | None => DEFAULT_TTL
  end.

Definition getCookieMaxAge (sessionOptions : option IronSessionOptions.t) : Z :=
  match (sessionOptions ≫= IronSessionOptions.cookieOptions)
          ≫= CookieSerializeOptions.maxAge with
  | Some m =>
      if negb (Z.eqb m 0) then Z.min m MAX_TTL
      else Z.min (resolved_ttl sessionOptions - TIMESTAMP_SKEW_SEC) MAX_TTL
  | None => Z.min (resolved_ttl sessionOptions - TIMESTAMP_SKEW_SEC) MAX_TTL
  end.

Definition getCookieSerializeOptions (env : Env)
    (sessionOptions : option IronSessionOptions.t) : CookieSerializeOptions.t :=
  let given :=
    match sessionOptions ≫= IronSessionOptions.cookieOptions with
    | Some o => o
    | None => CookieSerializeOptions.none
    end in
  CookieSerializeOptions.with_maxAge
    (CookieSerializeOptions.spread (DEFAULT_COOKIE_OPTIONS env) given)
    (getCookieMaxAge sessionOptions).

(** ** IronSession *)

Record IronSession (Value : Type) : Type := {
  store : IronStore Value;
  req : Request;
  res : Response;
  cookieName : string;
  cookieOptions : CookieSerializeOptions.t
}.
Arguments store {Value} _.
Arguments req {Value} _.
Arguments res {Value} _.
Arguments cookieName {Value} _.
Arguments cookieOptions {Value} _.
Arguments Build_IronSession {Value} store req res cookieName cookieOptions.

Definition set_store {Value} (s : IronSession Value) (st : IronStore Value)
  : IronSession Value :=
  {| store := st; req := req s; res := res s;
     cookieName := cookieName s; cookieOptions := cookieOptions s |}.

Definition set_res {Value} (s : IronSession Value) (r : Response)
  : IronSession Value :=
  {| store := store s; req := req s; res := r;
     cookieName := cookieName s; cookieOptions := cookieOptions s |}.

(** [new IronSession(req, res, sessionOptions)] *)
Definition new_IronSession {Value} `{!Iron.t Value} (env : Env)
    (req : Request) (res : Response) (sessionOptions : option IronSessionOptions.t)
  : outcome (IronSession Value) :=
  name ← getCookieName env sessionOptions;
  let options := getCookieSerializeOptions env sessionOptions in
  password ← getPassword env sessionOptions;
  let ttl := resolved_ttl sessionOptions in
  st ← new_IronStore password ttl;
  Ret {| store := st; req := req; res := res;
         cookieName := name; cookieOptions := options |}.

(** The accessors of the session are the store's, bound to its store. *)
Definition get {Value} (s : IronSession Value) (key : string) : bag_property Value :=
  store_get (store s) key.
Definition set {Value} `{!JsValue.t Value} (s : IronSession Value) (key : string)
    (value : Value) : IronSession Value :=
  set_store s (store_set (store s) key value).
Definition unset {Value} (s : IronSession Value) (key : string) : IronSession Value :=
  set_store s (store_unset (store s) key).
Definition clear {Value} (s : IronSession Value) : IronSession Value :=
  set_store s (store_clear (store s)).

Definition readCookie {Value} `{!cookie.t} (s : IronSession Value) : property string :=
  getRequestCookie (req s) (cookieName s).

Definition too_big_error (n : nat) : exn :=
  Error ("IronSession cookie length is too big: " +:+ pretty n).

Definition writeCookie {Value} `{!cookie.t} (value : string) (s : IronSession Value)
  : run Value (IronSession Value) unit :=
  let options :=
    if truthy_string value then cookieOptions s
    else CookieSerializeOptions.with_maxAge (cookieOptions s) 0 in
  match cookie.serialize (cookieName s) value options with
  | Throw e => {| result := Throw e; final := s; calls := [] |}
  | Ret serialized =>
      if Nat.ltb MAX_COOKIE_SIZE (String.length serialized)
      then {| result := Throw (too_big_error (String.length serialized));
              final := s; calls := [] |}
      else {| result := Ret tt;
              final := set_res s (setResponseCookie (res s) serialized);
              calls := [] |}
  end.

Definition restore {Value} `{!Iron.t Value} `{!cookie.t} (now : Z)
    (s : IronSession Value) : run Value (IronSession Value) bool :=
  match readCookie s with
  | Own sealed =>
      if truthy_string sealed
      then let r := store_unseal now sealed (store s) in
           {| result := result r; final := set_store s (final r); calls := calls r |}
      else {| result := Ret false; final := s; calls := [] |}
  | Inherited name =>
      (* a function or an object: truthy, and handed to [unseal] *)
      let r := store_unseal_member now name (store s) in
      {| result := result r; final := set_store s (final r); calls := calls r |}
  | Undefined => {| result := Ret false; final := s; calls := [] |}
  end.

Definition save {Value} `{!Iron.t Value} `{!cookie.t} (now : Z)
    (s : IronSession Value) : run Value (IronSession Value) unit :=
  let r := store_seal now (store s) in
  match result r with
  | Throw e => {| result := Throw e; final := set_store s (final r); calls := calls r |}
  | Ret sealed =>
      let w := writeCookie sealed (set_store s (final r)) in
      {| result := result w; final := final w; calls := calls r ++ calls w |}
  end.

Definition destroy {Value} `{!cookie.t} (s : IronSession Value)
  : run Value (IronSession Value) unit :=
  writeCookie "" (set_store s (store_clear (store s))).

(** [getIronSession]: construct, restore, and hand out the session. *)
Definition getIronSession {Value} `{!Iron.t Value} `{!cookie.t} (env : Env) (now : Z)
    (req : Request) (res : Response) (sessionOptions : option IronSessionOptions.t)
  : outcome (IronSession Value) * list (IronCall Value) :=
  match new_IronSession env req res sessionOptions with
  | Throw e => (Throw e, [])
  | Ret session =>
      let r := restore now session in
      match result r with
      | Throw e => (Throw e, calls r)
      | Ret _ => (Ret (final r), calls r)
      end
  end.

(** ** The contract of the sealing primitive *)

(** When [Iron.unseal], run at clock reading [now'], still accepts a seal
    made at [now] under [options]: a zero [ttl] means no expiry, otherwise
    the expiry [now + offset + ttl] must lie after [now' + offset] minus
    the permitted skew. *)
Definition unexpired (options : SealOptions.t) (now now' : Z) : Prop :=
  SealOptions.ttl options = 0
  ∨ now' + SealOptions.localtimeOffsetMsec options
      - SealOptions.timestampSkewSec options * 1000
    < now + SealOptions.localtimeOffsetMsec options + SealOptions.ttl options.

(** What the session code relies on from the primitive, for the passwords
    [accepts] singles out (for [@hapi/iron]: a key id of word characters
    that is not empty, and a secret of at least 32 characters): it seals
    every object under such a password, and unsealing the token with a
    hash that holds, under the key id, the secret it was sealed with gives
    the sealed object back as long as the seal has not expired. *)
Class IronLaws (Value : Type) `{!Iron.t Value}
    (accepts : IronSealPassword → bool) : Prop := {
  seal_accepted : ∀ now object pw options,
    accepts pw = true → ∃ sealed, Iron.seal now object pw options = Ret sealed;
  unseal_seal : ∀ now now' object pw options hash sealed,
    accepts pw = true →
    Iron.seal now object pw options = Ret sealed →
    hash !! id pw = Some (secret pw) →
    unexpired options now now' →
    Iron.unseal now' sealed hash options = Ret object
}.

(** ** A reference primitive and a reference codec

    Executable stand-ins for the two collaborators, used to run the session
    code on concrete requests. The reference primitive follows the checks
    of [Iron.unseal] in their order (shape of the token, expiry, password
    lookup by key id, integrity) and raises its messages; its token is the
    prefix [Fe26.2*] followed by an encoding of the key id, the secret,
    the expiry and the object, so integrity is the comparison of secrets. *)
Module RefIron.

Fixpoint pos_to_bits (p : positive) : string :=
  match p with
  | xH => ""
  | xO q => String "0" (pos_to_bits q)
  | xI q => String "1" (pos_to_bits q)
  end.

Fixpoint bits_to_pos (s : string) : option positive :=
  match s with
  | "" => Some xH
  | String c rest =>
      q ← bits_to_pos rest;
      if Ascii.eqb c "0" then Some (xO q)
      else if Ascii.eqb c "1" then Some (xI q)
      else None
  end.

Fixpoint strip_prefix (p s : string) : option string :=
  match p with
  | "" => Some s
  | String a p' =>
      match s with
      | String b s' => if Ascii.eqb a b then strip_prefix p' s' else None
      | "" => None
      end
  end.

(** [\w]: a letter, a digit or the underscore. *)
Definition word_char (c : ascii) : bool :=
  let n := nat_of_ascii c in
  (Nat.leb 48 n && Nat.leb n 57) || (Nat.leb 65 n && Nat.leb n 90)
  || (Nat.leb 97 n && Nat.leb n 122) || Nat.eqb n 95.

Definition valid_id (i : string) : bool :=
  negb (String.eqb i "") && forallb word_char (list_ascii_of_string i).

Definition accepts (pw : IronSealPassword) : bool :=
  valid_id (id pw) && Nat.leb 32 (String.length (secret pw)).

Definition defaults : SealOptions.t :=
  {| SealOptions.ttl := 0;
     SealOptions.timestampSkewSec := 60;
     SealOptions.localtimeOffsetMsec := 0 |}.

Definition macPrefix : string := "Fe26.2*".

Section Primitive.
Context {Value : Type} `{Countable Value}.

Definition seal (now : Z) (object : gmap string Value) (pw : IronSealPassword)
    (options : SealOptions.t) : outcome string :=
  if negb (valid_id (id pw)) then Throw (Error "Invalid password id")
  else if Nat.eqb (String.length (secret pw)) 0 then Throw (Error "Empty password")
  else if negb (Nat.leb 32 (String.length (secret pw)))
  then Throw (Error "Password string too short (min 32 characters required)")
  else
    let expiration :=
      if Z.eqb (SealOptions.ttl options) 0 then None
      else Some (now + SealOptions.localtimeOffsetMsec options
                 + SealOptions.ttl options) in
    Ret (macPrefix +:+ pos_to_bits (encode (id pw, secret pw, expiration, object))).

Definition expired (options : SealOptions.t) (now : Z) (expiration : option Z)
  : bool :=
  match expiration with
  | None => false
  | Some e =>
      Z.leb e (now + SealOptions.localtimeOffsetMsec options
               - SealOptions.timestampSkewSec options * 1000)
  end.

Definition parse_token (sealed : string)
  : option (string * string * option Z * gmap string Value) :=
  body ← strip_prefix macPrefix sealed;
  p ← bits_to_pos body;
  decode p.

Definition unseal (now : Z) (sealed : string) (hash : IronUnsealPassword)
    (options : SealOptions.t) : outcome (gmap string Value) :=
  match parse_token sealed with
  | None => Throw (Error "Incorrect number of sealed components")
  | Some (i, sec, expiration, object) =>
      if expired options now expiration then Throw (Error "Expired seal")
      else match hash !! i with
           | None => Throw (Error ("Cannot find password: " +:+ i))
           | Some s =>
               if String.eqb s sec then Ret object
               else Throw (Error "Bad hmac value")
           end
  end.

(** Handed a function or an object, the primitive fails on its first
    step, [sealed.split], with the [TypeError] of the language. *)
Definition unseal_member (now : Z) (name : string) (hash : IronUnsealPassword)
    (options : SealOptions.t) : outcome (gmap string Value) :=
  Throw TypeError.

#[local] Instance iron : Iron.t Value :=
  {| Iron.defaults := defaults; Iron.seal := seal; Iron.unseal := unseal;
     Iron.unseal_member := unseal_member |}.
End Primitive.
End RefIron.
Existing Instance RefIron.iron.

(** The reference codec writes [name=value] followed by the attributes in
    the order of [cookie.serialize]; values are written as they are (the
    tokens of the reference primitive need no escaping) and an expiry date
    is written as its clock reading. *)
Module RefCookie.

Definition attr (label : string) (o : option string) : string :=
  match o with
  | Some v => "; " +:+ label +:+ "=" +:+ v
  | None => ""
  end.

Definition flag (label : string) (o : option bool) : string :=
  match o with
  | Some true => "; " +:+ label
  | _ => ""
  end.

Definition sameSite_attr (o : option SameSite) : string :=
  match o with
  | Some SameSiteTrue | Some Strict => "; SameSite=Strict"
  | Some Lax => "; SameSite=Lax"
  | Some NoneSite => "; SameSite=None"
  | Some SameSiteFalse | None => ""
  end.

Definition serialize (name value : string) (o : CookieSerializeOptions.t)
  : outcome string :=
  if String.eqb name "" then Throw (Error "argument name is invalid")
  else Ret (name +:+ "=" +:+ value
            +:+ attr "Max-Age" (pretty <$> CookieSerializeOptions.maxAge o)
            +:+ attr "Domain" (CookieSerializeOptions.domain o)
            +:+ attr "Path" (CookieSerializeOptions.path o)
            +:+ attr "Expires" (pretty <$> CookieSerializeOptions.expires o)
            +:+ flag "HttpOnly" (CookieSerializeOptions.httpOnly o)
            +:+ flag "Secure" (CookieSerializeOptions.secure o)
            +:+ sameSite_attr (CookieSerializeOptions.sameSite o)).

Fixpoint split_on (sep : ascii) (s : string) : list string :=
  match s with
  | "" => [""]
  | String c rest =>
      let parts := split_on sep rest in
      if Ascii.eqb c sep then "" :: parts
      else match parts with
           | p :: ps => String c p :: ps
           | [] => [String c ""]
           end
  end.

Fixpoint cut_at (sep : ascii) (s : string) : option (string * string) :=
  match s with
  | "" => None
  | String c rest =>
      if Ascii.eqb c sep then Some ("", rest)
      else match cut_at sep rest with
           | Some (k, v) => Some (String c k, v)
           | None => None
           end
  end.

Fixpoint ltrim (s : string) : string :=
  match s with
  | String c rest => if Ascii.eqb c " " then ltrim rest else s
  | "" => ""
  end.

Definition trim (s : string) : string :=
  String.rev (ltrim (String.rev (ltrim s))).

(** Pairs are separated by [;]; a pair without [=] is skipped; the first
    pair of a name wins. *)
Definition parse (raw : string) : gmap string string :=
  foldr (λ pair acc,
           match cut_at "=" pair with
           | Some (k, v) => <[trim k := trim v]> acc
           | None => acc
           end) ∅ (split_on ";" raw).

#[local] Instance codec : cookie.t :=
  {| cookie.serialize := serialize; cookie.parse := parse |}.
End RefCookie.
Existing Instance RefCookie.codec.

(** ** The properties as the specification words them

    The specification's formulas for the derived cookie max-age and for the
    time-to-live handed to the primitive, to be compared with what
    [getCookieMaxAge] and the [IronStore] constructor compute. *)

(** "derived max-age = min(configured max-age override, TTL - clock-skew
    allowance, int32 max)" *)
Definition spec_max_age (override : option Z) (ttl : Z) : Z :=
  match override with
  | Some m => Z.min m (Z.min (ttl - TIMESTAMP_SKEW_SEC) MAX_TTL)
  | None => Z.min (ttl - TIMESTAMP_SKEW_SEC) MAX_TTL
  end.

(** "time-to-live in seconds (bounded to a maximum of 2^31-1 ...)", then
    converted to milliseconds *)
Definition spec_seal_ttl_ms (ttl : Z) : Z := Z.min ttl MAX_TTL * 1000.

(** The Set-Cookie values a response carries, as the header lines that go
    out: a number as its decimal text, a string as itself, an array as one
    value per element. *)
Definition set_cookie_values (res : Response) : list string :=
  match res !! "set-cookie" with
  | Some v => flat_strings v
  | None => []
  end.

(** The secret the loop of [normalizeUnsealPassword] leaves under key [k]:
    that of the last element of the list whose id is [k], and none under
    the key [__proto__]. *)
Definition last_secret (k : string) (l : list IdSecret) : option string :=
  if String.eqb k "__proto__" then None
  else match list.last (filter (λ e, id e = k) l) with
       | Some e => Some (secret e)
       | None => None
       end.

(** The max-age override of the session options,
    [sessionOptions?.cookieOptions?.maxAge]. *)
Abbreviation override_of sessionOptions :=
  ((sessionOptions ≫= IronSessionOptions.cookieOptions)
     ≫= CookieSerializeOptions.maxAge).

(** The options an invocation of the primitive was given. *)
Definition call_options {Value} (c : IronCall Value) : SealOptions.t :=
  match c with
  | SealCall _ _ _ options => options
  | UnsealCall _ _ _ options => options
  | UnsealMemberCall _ _ _ options => options
  end.

(** ** Concrete sessions

    Inputs on which the session code is run below, over the reference
    primitive and codec, with strings as the values of the bag. *)
Module Demo.

(** Strings as values of the bag: primitives. *)
#[local] Instance string_values : JsValue.t string :=
  {| JsValue.kind := λ _, Primitive; JsValue.reaches_setter := λ _, false |}.

Definition secret_a : string := "0123456789abcdef0123456789abcdef".
Definition secret_b : string := "fedcba9876543210fedcba9876543210".

Definition pw_single : IronDenormalizedPassword := PwString secret_a.

Definition rotation : list IdSecret :=
  [ {| id := "2"; secret := secret_b |}; {| id := "1"; secret := secret_a |} ].

(** Two entries under one key id with different secrets. *)
Definition repeated : list IdSecret :=
  [ {| id := "k"; secret := secret_a |}; {| id := "k"; secret := secret_b |} ].

Definition bag : gmap string string := {[ "user" := "alice" ]}.

Definition options_of (pw : IronDenormalizedPassword) (ttl : option Z)
    (maxAge : option Z) : option IronSessionOptions.t :=
  Some {| IronSessionOptions.cookieName := Some "sid";
          IronSessionOptions.cookieOptions :=
            Some (match maxAge with
                  | Some m => CookieSerializeOptions.with_maxAge
                                CookieSerializeOptions.none m
                  | None => CookieSerializeOptions.none
                  end);
          IronSessionOptions.password := Some pw;
          IronSessionOptions.ttl := ttl |}.

(** A request without cookies and a response that already carries a
    cookie of somebody else. *)
Definition bare_request : Request := {| cookies := None; headers := ∅ |}.
Definition other_cookie : string := "theme=dark; Path=/".
Definition response : Response := {[ "set-cookie" := HString other_cookie ]}.

(** A request on which the middleware found the session cookie with an
    empty value, and one that carries the raw header only. *)
Definition empty_cookie_request : Request :=
  {| cookies := Some {[ "sid" := "" ]}; headers := ∅ |}.
Definition header_request (sealed : string) : Request :=
  {| cookies := None; headers := {[ "cookie" := "theme=dark; sid=" +:+ sealed ]} |}.

(** A response whose Set-Cookie header is set to the empty string. *)
Definition blank_response : Response := {[ "set-cookie" := HString "" ]}.

Fixpoint replicate_string (n : nat) (c : ascii) : string :=
  match n with
  | O => ""
  | S m => String c (replicate_string m c)
  end.

(** A bag with one long entry. *)
Definition big_bag : gmap string string :=
  {[ "note" := replicate_string 80 "x" ]}.

Definition store_of (pw : IronDenormalizedPassword) (ttl : Z)
  : IronStore string :=
  match new_IronStore pw ttl with
  | Ret st => st
  | Throw _ =>
      {| unsealed := ∅; prototype := ObjectPrototype;
         sealPassword := {| id := ""; secret := "" |};
         unsealPassword := ∅; sealOptions := RefIron.defaults |}
  end.

(** The token of [bag], sealed at clock reading 1000 for one hour. *)
Definition sealed_bag : string :=
  match result (store_seal 1000 (set_unsealed (store_of pw_single 3600) bag)) with
  | Ret sealed => sealed
  | Throw _ => ""
  end.

Definition session_of (request : Request) (r : Response)
    (o : option IronSessionOptions.t) : IronSession string :=
  match new_IronSession ∅ request r o with
  | Ret s => s
  | Throw _ =>
      {| store := store_of pw_single 0; req := request; res := r;
         cookieName := ""; cookieOptions := CookieSerializeOptions.none |}
  end.
End Demo.
Existing Instance Demo.string_values.

(** The three conditions under which a seal is "no longer valid", as the
    primitive reports them in the message of the error it raises: the seal
    has expired, its integrity check failed, or its key id is not among
    the passwords given. *)
Definition recoverable (message : string) : Prop :=
  message = "Expired seal"
  ∨ message = "Bad hmac value"
  ∨ ∃ keyId, message = "Cannot find password: " +:+ keyId.

(** The options [writeCookie] serializes with: the session's, with the
    max-age replaced by 0 when the value is the empty string. *)
Definition write_options {Value} (s : IronSession Value) (value : string)
  : CookieSerializeOptions.t :=
  if truthy_string value then cookieOptions s
  else CookieSerializeOptions.with_maxAge (cookieOptions s) 0.

(** A Set-Cookie header whose whole value is the empty string or the
    number 0: falsy in JavaScript. *)
Definition blank_set_cookie (res : Response) : Prop :=
  res !! "set-cookie" = Some (HString "") ∨ res !! "set-cookie" = Some (HNumber 0).

(** The condition under which the seal password is the one the unseal
    mapping holds under the seal id: always for a secret string; for a
    list, when the last element listed under the first element's id
    carries the first element's secret. *)
Definition first_secret_current (pw : IronDenormalizedPassword) : Prop :=
  match pw with
  | PwString _ => True
  | PwList l =>
      match l with
      | first :: _ => last_secret (id first) l = Some (secret first)
      | [] => True
      end
  end.

(** ** Sequences of method calls

    A call of one of the methods of a session, and the session a caller
    holds after a sequence of such calls, whatever their outcomes (a caller
    may go on using a session after a call has raised). *)
Inductive Method (Value : Type) : Type :=
  | CallSet (key : string) (value : Value)
  | CallUnset (key : string)
  | CallClear
  | CallRestore (now : Z)
  | CallSave (now : Z)
  | CallDestroy.
Arguments CallSet {Value} key value.
Arguments CallUnset {Value} key.
Arguments CallClear {Value}.
Arguments CallRestore {Value} now.
Arguments CallSave {Value} now.
Arguments CallDestroy {Value}.

Definition invoke {Value} `{!JsValue.t Value} `{!Iron.t Value} `{!cookie.t}
    (m : Method Value)
    (s : IronSession Value) : IronSession Value :=
  match m with
  | CallSet key value => set s key value
  | CallUnset key => unset s key
  | CallClear => clear s
  | CallRestore now => final (restore now s)
  | CallSave now => final (save now s)
  | CallDestroy => final (destroy s)
  end.

Definition invoke_all {Value} `{!JsValue.t Value} `{!Iron.t Value} `{!cookie.t}
    (ms : list (Method Value)) (s : IronSession Value) : IronSession Value :=
  foldl (λ acc m, invoke m acc) s ms.

(** The configuration of a session: what its constructor resolved from
    the request and the options, apart from the bag and the response. *)
Definition same_configuration {Value} (s s' : IronSession Value) : Prop :=
  req s' = req s
  ∧ cookieName s' = cookieName s
  ∧ cookieOptions s' = cookieOptions s
  ∧ sealPassword (store s') = sealPassword (store s)
  ∧ unsealPassword (store s') = unsealPassword (store s)
  ∧ sealOptions (store s') = sealOptions (store s).

(** * Properties *)

(** ** Password normalization *)

Lemma assign_secret_lookup (m : IronUnsealPassword) (e : IdSecret) (k : string) :
  assign_secret m e !! k
  = if decide (id e = k ∧ k ≠ "__proto__") then Some (secret e) else m !! k.
Proof.
  unfold assign_secret.
  destruct (String.eqb_spec (id e) "__proto__") as [Hp|Hp].
  - rewrite decide_False; [done|]. intros [<- Hne]. done.
  - destruct (decide (id e = k)) as [<-|Hk].
    + rewrite decide_True by done. apply lookup_insert_eq.
    + rewrite decide_False by (intros [? _]; done). by apply lookup_insert_ne.
Qed.

Lemma assign_all_lookup (l : list IdSecret) (m : IronUnsealPassword) (k : string) :
  assign_all l m !! k =
  match last_secret k l with
  | Some s => Some s
  | None => m !! k
  end.
Proof.
  revert m. induction l as [|e l IH]; intros m.
  { unfold last_secret. by destruct (String.eqb k "__proto__"). }
  change (assign_all (e :: l) m) with (assign_all l (assign_secret m e)).
  rewrite IH, assign_secret_lookup. unfold last_secret.
  destruct (String.eqb_spec k "__proto__") as [Hp|Hp].
  { rewrite decide_False; [done|]. intros [_ ?]. done. }
  rewrite filter_cons.
  destruct (decide (id e = k)) as [Hk|Hk].
  - rewrite last_cons. destruct (list.last (filter _ l)); [done|].
    by rewrite decide_True.
  - destruct (list.last (filter _ l)); [done|].
    rewrite decide_False; [done|]. intros [? _]. done.
Qed.

Lemma filter_id_absent (k : string) (l : list IdSecret) :
  k ∉ id <$> l → filter (λ e, id e = k) l = [].
Proof.
  induction l as [|e l IH]; intros Hk; [done|].
  rewrite fmap_cons in Hk. apply not_elem_of_cons in Hk as [Hne Hk].
  rewrite filter_cons_False by congruence. by apply IH.
Qed.

Lemma last_secret_NoDup (l : list IdSecret) (x : IdSecret) :
  NoDup (id <$> l) → x ∈ l → id x ≠ "__proto__" →
  last_secret (id x) l = Some (secret x).
Proof.
  intros Hnd Hx Hp. unfold last_secret.
  apply String.eqb_neq in Hp. rewrite Hp. clear Hp.
  induction l as [|e l IH].
  - by apply elem_of_nil in Hx.
  - rewrite fmap_cons in Hnd. apply list.NoDup_cons in Hnd as [Hne Hnd].
    rewrite filter_cons. apply elem_of_cons in Hx as [->|Hx].
    + rewrite decide_True by done. rewrite last_cons.
      by rewrite filter_id_absent.
    + rewrite decide_False.
      * by apply IH.
      * intros Hid. apply Hne. rewrite Hid. by apply list_elem_of_fmap_2.
Qed.

(** C5 (as amended). Password normalization is a function of the
    denormalized input alone. For a non-empty secret string [s] the seal
    form is [{ id: "1", secret: s }] and the unseal form is the one-entry
    mapping of key "1" to [s]. For a non-empty list the seal form is its
    first element, and the unseal form maps each key [k] other than
    [__proto__] to the secret of the last element listed under id [k], and
    holds no other key (an element whose id is [__proto__] leaves no entry);
    when the listed ids are pairwise distinct this is, for each element
    whose id is not [__proto__], the element's own secret. On the empty
    string and on the empty list both normalizations raise the
    configuration error. *)
Theorem normalize_password_forms :
  (∀ s, s ≠ "" →
     normalizeSealPassword (PwString s) = Ret {| id := "1"; secret := s |}
     ∧ normalizeUnsealPassword (PwString s) = Ret {[ "1" := s ]})
  ∧ (∀ first rest,
       normalizeSealPassword (PwList (first :: rest)) = Ret first
       ∧ ∃ m, normalizeUnsealPassword (PwList (first :: rest)) = Ret m
              ∧ (∀ k, m !! k = last_secret k (first :: rest))
              ∧ (∀ k, is_Some (m !! k)
                      ↔ k ∈ id <$> first :: rest ∧ k ≠ "__proto__")
              ∧ (NoDup (id <$> first :: rest) →
                 ∀ e, e ∈ first :: rest → id e ≠ "__proto__" →
                      m !! id e = Some (secret e)))
  ∧ (∀ pw, pw = PwString "" ∨ pw = PwList [] →
       normalizeSealPassword pw = Throw (Error "Empty IronStore argument: `password`")
       ∧ normalizeUnsealPassword pw
         = Throw (Error "Empty IronStore argument: `password`")).
Proof.
  split; [|split].
  - intros [|c s] Hs; [done|]. by split.
  - intros first rest. split; [done|].
    exists (assign_all (first :: rest) ∅).
    assert (Hlook : ∀ k, assign_all (first :: rest) ∅ !! k
                         = last_secret k (first :: rest)).
    { intros k. rewrite assign_all_lookup, lookup_empty.
      by destruct (last_secret k (first :: rest)). }
    split; [done|]. split; [done|]. split.
    + intros k. rewrite Hlook. unfold last_secret.
      destruct (String.eqb_spec k "__proto__") as [Hp|Hp].
      { split; [by intros [? ?] | by intros [_ ?]]. }
      split.
      * intros [s Hs]. split; [|done].
        destruct (list.last (filter _ (first :: rest))) as [e|] eqn:He; [|done].
        apply last_Some in He as [l' He].
        assert (Hin : e ∈ filter (λ e0, id e0 = k) (first :: rest)).
        { rewrite He. apply elem_of_app. right. by apply list_elem_of_singleton. }
        apply list_elem_of_filter in Hin as [<- Hin].
        by apply list_elem_of_fmap_2.
      * intros [Hk _]. apply list_elem_of_fmap in Hk as (e & -> & He).
        destruct (list.last (filter _ (first :: rest))) as [e'|] eqn:He'; [by eexists|].
        apply last_None in He'.
        assert (Hin : e ∈ filter (λ e0, id e0 = id e) (first :: rest))
          by by apply list_elem_of_filter.
        rewrite He' in Hin. by apply elem_of_nil in Hin.
    + intros Hnd e He Hp. rewrite Hlook. by apply last_secret_NoDup.
  - intros pw [-> | ->]; by split.
Qed.

(** On the rotation list of two distinct ids, each id is mapped to its own
    secret and the seal form is the first element. *)
Lemma normalize_password_forms_witness :
  normalizeSealPassword (PwString Demo.secret_a)
    = Ret {| id := "1"; secret := Demo.secret_a |}
  ∧ (∃ m, normalizeUnsealPassword (PwList Demo.rotation) = Ret m
          ∧ ∀ e, e ∈ Demo.rotation → m !! id e = Some (secret e))
  ∧ normalizeSealPassword (PwList []) = Throw (Error "Empty IronStore argument: `password`").
Proof.
  destruct normalize_password_forms as (Hs & Hl & He).
  split; [|split].
  - apply (Hs Demo.secret_a). discriminate.
  - destruct (Hl {| id := "2"; secret := Demo.secret_b |}
                 [ {| id := "1"; secret := Demo.secret_a |} ])
      as (_ & m & Hm & _ & _ & Hnd).
    exists m. split; [exact Hm|]. intros e Hin. apply Hnd; [|exact Hin|].
    + apply (bool_decide_unpack _). vm_compute. reflexivity.
    + apply elem_of_cons in Hin as [->|Hin]; [discriminate|].
      apply list_elem_of_singleton in Hin as ->. discriminate.
  - apply (He (PwList [])). by right.
Defined.

(** C5, counterexample. With two list elements under one id, the unseal
    form holds the second secret under that id: the first element's id is
    not mapped to the first element's secret. *)
Lemma normalizeUnsealPassword_repeated_id :
  normalizeUnsealPassword (PwList Demo.repeated) = Ret {[ "k" := Demo.secret_b ]}
  ∧ ¬ (∀ m e, normalizeUnsealPassword (PwList Demo.repeated) = Ret m →
              e ∈ Demo.repeated → m !! id e = Some (secret e)).
Proof.
  assert (Hm : normalizeUnsealPassword (PwList Demo.repeated)
               = Ret {[ "k" := Demo.secret_b ]}).
  { vm_compute. reflexivity. }
  split; [exact Hm|].
  intros Hall.
  specialize (Hall _ {| id := "k"; secret := Demo.secret_a |} Hm).
  rewrite lookup_singleton_eq in Hall.
  assert (Hin : {| id := "k"; secret := Demo.secret_a |} ∈ Demo.repeated)
    by (apply elem_of_cons; by left).
  specialize (Hall Hin). discriminate Hall.
Qed.

(** ** Cookie max-age and seal time-to-live *)

Lemma getCookieSerializeOptions_maxAge env sessionOptions :
  CookieSerializeOptions.maxAge (getCookieSerializeOptions env sessionOptions)
  = Some (getCookieMaxAge sessionOptions).
Proof. reflexivity. Qed.

Lemma new_IronSession_fields {Value} `{!Iron.t Value} env rq rs sessionOptions
    (s : IronSession Value) :
  new_IronSession env rq rs sessionOptions = Ret s →
  req s = rq ∧ res s = rs
  ∧ getCookieName env sessionOptions = Ret (cookieName s)
  ∧ cookieOptions s = getCookieSerializeOptions env sessionOptions
  ∧ ∃ pw, getPassword env sessionOptions = Ret pw
          ∧ new_IronStore pw (resolved_ttl sessionOptions) = Ret (store s).
Proof.
  unfold new_IronSession. intros Hs.
  destruct (getCookieName env sessionOptions) as [name|] eqn:Hn; [|done].
  destruct (getPassword env sessionOptions) as [pw|] eqn:Hp; [|done].
  simpl in Hs.
  destruct (new_IronStore pw (resolved_ttl sessionOptions)) as [st|] eqn:Hst; [|done].
  simpl in Hs. injection Hs as <-. simpl. eauto 10.
Qed.

(** C3 (as amended). The max-age of the session's cookie options is
    [min(override, 2^31-1)] when a non-zero max-age override is configured
    and [min(TTL - 60, 2^31-1)] otherwise, where TTL is the configured
    time-to-live or 30 days. It never exceeds 2^31-1, and without a
    non-zero override it never exceeds TTL - 60; an override is not
    capped by the time-to-live. *)
Theorem cookie_max_age_derivation {Value} `{!Iron.t Value}
    (env : Env) (rq : Request) (rs : Response)
    (sessionOptions : option IronSessionOptions.t) (s : IronSession Value) :
  new_IronSession env rq rs sessionOptions = Ret s →
  ∃ maxAge, CookieSerializeOptions.maxAge (cookieOptions s) = Some maxAge
    ∧ maxAge = getCookieMaxAge sessionOptions
    ∧ (∀ m, override_of sessionOptions = Some m → m ≠ 0 →
            maxAge = Z.min m 2147483647)
    ∧ (override_of sessionOptions = None ∨ override_of sessionOptions = Some 0 →
       maxAge = Z.min (resolved_ttl sessionOptions - 60) 2147483647
       ∧ maxAge = spec_max_age None (resolved_ttl sessionOptions)
       ∧ maxAge ≤ resolved_ttl sessionOptions - 60)
    ∧ maxAge ≤ 2147483647.
Proof.
  intros Hs. apply new_IronSession_fields in Hs as (_ & _ & _ & Ho & _).
  exists (getCookieMaxAge sessionOptions). rewrite Ho.
  split; [apply getCookieSerializeOptions_maxAge|]. split; [done|].
  unfold getCookieMaxAge, spec_max_age, MAX_TTL, TIMESTAMP_SKEW_SEC.
  destruct (override_of sessionOptions) as [m|].
  - destruct (Z.eqb_spec m 0) as [->|Hm]; simpl.
    + split; [by intros ? [= <-] ?|]. split; [|lia]. intros _. lia.
    + split; [by intros ? [= <-] _|]. split; [|lia].
      intros [?|[= ?]]; done.
  - split; [done|]. split; [|lia]. intros _. lia.
Qed.

(** A session configured with time-to-live 100 and no override gets
    max-age 40. *)
Lemma cookie_max_age_derivation_witness :
  ∃ maxAge,
    CookieSerializeOptions.maxAge
      (cookieOptions (Demo.session_of Demo.bare_request Demo.response
                        (Demo.options_of Demo.pw_single (Some 100) None)))
    = Some maxAge ∧ maxAge = 40.
Proof.
  destruct (cookie_max_age_derivation (Value := string) ∅ Demo.bare_request
              Demo.response (Demo.options_of Demo.pw_single (Some 100) None)
              (Demo.session_of Demo.bare_request Demo.response
                 (Demo.options_of Demo.pw_single (Some 100) None)) eq_refl)
    as (maxAge & Hm & _ & _ & Hd & _).
  exists maxAge. split; [exact Hm|].
  destruct (Hd (or_introl eq_refl)) as (-> & _). reflexivity.
Defined.

(** C3, counterexample. With time-to-live 100 and a max-age override of
    10000 the cookie max-age is 10000: it is not the minimum of the three
    quantities, which is 40, and it exceeds TTL - 60. *)
Lemma max_age_override_exceeds_ttl :
  let o := Demo.options_of Demo.pw_single (Some 100) (Some 10000) in
  CookieSerializeOptions.maxAge
    (cookieOptions (Demo.session_of Demo.bare_request Demo.response o))
  = Some 10000
  ∧ getCookieMaxAge o = 10000
  ∧ spec_max_age (override_of o) (resolved_ttl o) = 40
  ∧ ¬ (getCookieMaxAge o = spec_max_age (override_of o) (resolved_ttl o))
  ∧ ¬ (getCookieMaxAge o ≤ resolved_ttl o - 60).
Proof. repeat split; [intros [=]|vm_compute; intros H; apply H; reflexivity]. Qed.

Lemma new_IronStore_fields {Value} `{!Iron.t Value} pw ttl (st : IronStore Value) :
  new_IronStore pw ttl = Ret st →
  unsealed st = ∅
  ∧ normalizeSealPassword pw = Ret (sealPassword st)
  ∧ normalizeUnsealPassword pw = Ret (unsealPassword st)
  ∧ sealOptions st = SealOptions.with_ttl Iron.defaults (ttl * 1000).
Proof.
  unfold new_IronStore. intros Hst.
  destruct (normalizeSealPassword pw) as [sp|]; [|done].
  destruct (normalizeUnsealPassword pw) as [up|]; [|done].
  injection Hst as <-. done.
Qed.

Lemma new_IronStore_nonempty {Value} `{!Iron.t Value} pw ttl :
  pw_length pw ≠ 0%nat → ∃ st : IronStore Value, new_IronStore pw ttl = Ret st.
Proof.
  intros Hlen. unfold new_IronStore.
  destruct pw as [[|c s]|[|e l]]; simpl in *; [done|by eexists|done|by eexists].
Qed.

(** C4 (as amended). The time-to-live handed to the sealing primitive is
    the configured number of seconds times 1000, for every configured
    value: the store applies no upper bound before the conversion to
    milliseconds (the bound 2^31-1 is applied to the cookie max-age
    only). The same options reach the primitive on seal and on unseal. *)
Theorem seal_ttl_is_unbounded_product {Value} `{!Iron.t Value}
    (pw : IronDenormalizedPassword) (ttl : Z) :
  pw_length pw ≠ 0%nat →
  ∃ st : IronStore Value, new_IronStore pw ttl = Ret st
    ∧ SealOptions.ttl (sealOptions st) = ttl * 1000
    ∧ (∀ now bag c, c ∈ calls (store_seal now (set_unsealed st bag)) →
          SealOptions.ttl (call_options c) = ttl * 1000)
    ∧ (∀ now sealed bag c,
          c ∈ calls (store_unseal now sealed (set_unsealed st bag)) →
          SealOptions.ttl (call_options c) = ttl * 1000).
Proof.
  intros Hlen. destruct (new_IronStore_nonempty (Value := Value) pw ttl Hlen) as [st Hst].
  exists st. split; [done|].
  apply new_IronStore_fields in Hst as (_ & _ & _ & Ho).
  split; [by rewrite Ho|]. split.
  - intros now bag c Hc. apply list_elem_of_singleton in Hc as ->. simpl. by rewrite Ho.
  - intros now sealed bag c Hc. unfold store_unseal in Hc.
    destruct (Iron.unseal _ _ _ _) as [payload|[message| |]]; simpl in Hc.
    2: destruct (rethrown message); simpl in Hc.
    all: apply list_elem_of_singleton in Hc as ->; simpl; by rewrite Ho.
Qed.

(** A store configured with one hour seals with 3600000 milliseconds. *)
Lemma seal_ttl_is_unbounded_product_witness :
  ∃ st : IronStore string, new_IronStore Demo.pw_single 3600 = Ret st
    ∧ SealOptions.ttl (sealOptions st) = 3600000.
Proof.
  destruct (seal_ttl_is_unbounded_product (Value := string) Demo.pw_single 3600)
    as (st & Hst & Httl & _).
  - vm_compute. discriminate.
  - exists st. split; [exact Hst | exact Httl].
Defined.

(** C4, counterexample. Configured with 2^31 seconds, the store hands
    2147483648000 milliseconds to the primitive: more than the bounded
    value (2^31-1) * 1000. *)
Lemma seal_ttl_above_bound :
  let st := Demo.store_of Demo.pw_single 2147483648 in
  new_IronStore Demo.pw_single 2147483648 = Ret st
  ∧ SealOptions.ttl (sealOptions st) = 2147483648000
  ∧ calls (store_seal 0 st)
    = [SealCall 0 ∅ {| id := "1"; secret := Demo.secret_a |}
         {| SealOptions.ttl := 2147483648000;
            SealOptions.timestampSkewSec := 60;
            SealOptions.localtimeOffsetMsec := 0 |}]
  ∧ ¬ (SealOptions.ttl (sealOptions st) = spec_seal_ttl_ms 2147483648)
  ∧ ¬ (SealOptions.ttl (sealOptions st) ≤ 2147483647 * 1000).
Proof.
  repeat split; [intros [=]|vm_compute; intros H; apply H; reflexivity].
Qed.

(** ** Classification of unseal failures *)

(** Breaks the existentials and conjunctions among the hypotheses, then
    closes the goal by congruence or by the hypotheses at hand. *)
Ltac settle :=
  intros;
  repeat match goal with
         | H : ∃ _, _ |- _ => destruct H
         | H : _ ∧ _ |- _ => destruct H
         end;
  simplify_eq; unfold not in *;
  solve [ congruence | eauto | exfalso; eauto ].

Lemma prefix_append (p s : string) :
  String.prefix p s = true ↔ ∃ rest, s = p +:+ rest.
Proof.
  revert s. induction p as [|a p IH]; intros [|b s]; simpl.
  - split; [intros _; by exists "" | done].
  - split; [intros _; by exists (String b s) | done].
  - split; [done | by intros [rest [=]]].
  - destruct (Ascii.ascii_dec a b) as [->|Hab].
    + rewrite IH. split; intros [rest Hr]; exists rest;
        [by rewrite Hr | by injection Hr].
    + split; [done | intros [rest [= ? ?]]; done].
Qed.

Lemma rethrown_recoverable (message : string) :
  rethrown message = false ↔ recoverable message.
Proof.
  unfold rethrown, recoverable.
  destruct (String.eqb_spec message "Expired seal") as [->|H1]; simpl.
  { split; [by left|done]. }
  destruct (String.eqb_spec message "Bad hmac value") as [->|H2]; simpl.
  { split; [right; by left|done]. }
  rewrite negb_false_iff, prefix_append.
  split; [intros Hp; right; by right | intros [?|[?|Hp]]; done].
Qed.

Lemma store_unseal_calls {Value} `{!Iron.t Value} now sealed (st : IronStore Value) :
  calls (store_unseal now sealed st)
  = [UnsealCall now sealed (unsealPassword st) (sealOptions st)].
Proof.
  unfold store_unseal.
  destruct (Iron.unseal _ _ _ _) as [payload|[message| |]]; [done| |done|done].
  by destruct (rethrown message).
Qed.

(** C1. [unseal] returns [false] exactly when the primitive fails with
    one of the three recoverable conditions, and then the store, its bag
    included, is as before; every other failure of the primitive leaves
    [unseal] raising an error (the primitive's own when it has a message)
    with the store as before; [unseal] returns [true] exactly when the
    primitive returns a payload, which then is the bag, and in no other
    case does the store change. The primitive is invoked once, on the
    token, with the store's unseal password and options. *)
Theorem unseal_classification {Value} `{!Iron.t Value}
    (now : Z) (sealed : string) (st : IronStore Value) :
  let primitive := Iron.unseal now sealed (unsealPassword st) (sealOptions st) in
  let r := store_unseal now sealed st in
  (result r = Ret false
   ↔ ∃ message, primitive = Throw (Error message) ∧ recoverable message)
  ∧ (result r = Ret false → final r = st)
  ∧ (∀ e, primitive = Throw e →
          (∀ message, e = Error message → ¬ recoverable message) →
          (∃ e', result r = Throw e')
          ∧ (∀ message, e = Error message → result r = Throw e)
          ∧ final r = st)
  ∧ (result r = Ret true ↔ ∃ payload, primitive = Ret payload)
  ∧ (∀ payload, primitive = Ret payload →
                result r = Ret true ∧ final r = set_unsealed st payload)
  ∧ (result r ≠ Ret true → final r = st)
  ∧ calls r = [UnsealCall now sealed (unsealPassword st) (sealOptions st)].
Proof.
  intros primitive r. subst primitive r. unfold store_unseal.
  destruct (Iron.unseal now sealed (unsealPassword st) (sealOptions st))
    as [payload|[message| |]] eqn:Hp.
  - simpl. repeat split; try done; try settle.
  - pose proof (rethrown_recoverable message) as Hr.
    destruct (rethrown message) eqn:Hre; simpl.
    + assert (Hn : ¬ recoverable message) by (intros H'; apply Hr in H'; done).
      repeat split; try done; try settle.
    + assert (Hy : recoverable message) by by apply Hr.
      repeat split; try done; try settle.
  - simpl. repeat split; try done; try settle.
  - simpl. repeat split; try done; try settle.
Qed.

(** A token sealed under the newest key of the rotation list, unsealed
    by a store that only knows the retired key: [false], store unchanged. *)
Lemma unseal_classification_witness :
  let st := Demo.store_of (PwList [ {| id := "1"; secret := Demo.secret_a |} ]) 3600 in
  ∃ sealed,
    result (store_seal 1000 (set_unsealed (Demo.store_of (PwList Demo.rotation) 3600)
                               Demo.bag)) = Ret sealed
    ∧ Iron.unseal (Value := string) 2000 sealed (unsealPassword st) (sealOptions st)
      = Throw (Error "Cannot find password: 2")
    ∧ result (store_unseal 2000 sealed st) = Ret false
    ∧ final (store_unseal 2000 sealed st) = st.
Proof.
  intros st.
  destruct (result (store_seal 1000 (set_unsealed
              (Demo.store_of (PwList Demo.rotation) 3600) Demo.bag)))
    as [sealed|e] eqn:Hseal; [|vm_compute in Hseal; discriminate Hseal].
  exists sealed. split; [reflexivity|].
  destruct (unseal_classification 2000 sealed st) as (Hfalse & Hsame & _).
  assert (Hprim : Iron.unseal (Value := string) 2000 sealed (unsealPassword st)
                    (sealOptions st)
                  = Throw (Error "Cannot find password: 2")).
  { vm_compute in Hseal. injection Hseal as <-. vm_compute. reflexivity. }
  assert (Hr : result (store_unseal 2000 sealed st) = Ret false).
  { apply Hfalse. exists "Cannot find password: 2". split; [exact Hprim|].
    right. right. by exists "2". }
  split; [exact Hprim|]. split; [exact Hr | exact (Hsame Hr)].
Defined.

(** ** Reading the session cookie *)

Lemma truthy_string_spec (s : string) : truthy_string s = true ↔ s ≠ "".
Proof.
  unfold truthy_string. destruct (String.eqb_spec s ""); simpl; split; congruence.
Qed.

Lemma read_property_undefined {A} (own : gmap string A) (key : string) :
  read_property own key = Undefined
  ↔ own !! key = None ∧ key ∉ object_prototype_names.
Proof.
  unfold read_property, inherited_name.
  destruct (own !! key); [by split; [|intros [? _]]|].
  case_bool_decide; split; try done; by intros [_ ?].
Qed.

Lemma store_unseal_member_calls {Value} `{!Iron.t Value} now name
    (st : IronStore Value) :
  calls (store_unseal_member now name st)
  = [UnsealMemberCall now name (unsealPassword st) (sealOptions st)].
Proof.
  unfold store_unseal_member.
  destruct (Iron.unseal_member _ _ _ _) as [payload|[message| |]]; [done| |done|done].
  by destruct (rethrown message).
Qed.

(** C8 (as amended). The cookie is read as the property of the
    configured name of the pre-parsed cookie mapping of the request if
    there is one, and of the parsed raw Cookie header only otherwise.
    [restore] returns [false] without invoking the primitive when that
    read gives [undefined], which is when no cookie value is present under
    the name and the name is not a property name of [Object.prototype];
    when a non-empty cookie value is present, [restore] is the unsealing
    of that value: same outcome, same invocation of the primitive, same
    resulting store. When no cookie is present under a name that is a
    property name of [Object.prototype], [restore] hands that member to
    the primitive. *)
Theorem restore_unseals_nonempty_cookie {Value} `{!Iron.t Value} `{!cookie.t}
    (now : Z) (s : IronSession Value) :
  (∀ parsed, cookies (req s) = Some parsed →
             readCookie s = read_property parsed (cookieName s))
  ∧ (cookies (req s) = None →
     readCookie s
     = read_property (cookie.parse (default "" (headers (req s) !! "cookie")))
         (cookieName s))
  ∧ (∀ mapping, readCookie s = read_property mapping (cookieName s) →
       mapping !! cookieName s = None →
       cookieName s ∉ object_prototype_names →
       readCookie s = Undefined)
  ∧ (readCookie s = Undefined →
     result (restore now s) = Ret false
     ∧ calls (restore now s) = []
     ∧ final (restore now s) = s)
  ∧ (∀ sealed, readCookie s = Own sealed → sealed ≠ "" →
       let u := store_unseal now sealed (store s) in
       result (restore now s) = result u
       ∧ calls (restore now s) = calls u
       ∧ calls (restore now s)
         = [UnsealCall now sealed (unsealPassword (store s)) (sealOptions (store s))]
       ∧ final (restore now s) = set_store s (final u))
  ∧ (∀ name, readCookie s = Inherited name →
       let u := store_unseal_member now name (store s) in
       result (restore now s) = result u
       ∧ calls (restore now s)
         = [UnsealMemberCall now name (unsealPassword (store s))
              (sealOptions (store s))]
       ∧ final (restore now s) = set_store s (final u)).
Proof.
  split; [|split; [|split; [|split; [|split]]]].
  - unfold readCookie, getRequestCookie. by intros parsed ->.
  - unfold readCookie, getRequestCookie. intros ->.
    destruct (headers (req s) !! "cookie") as [h|]; simpl; [|done].
    destruct (truthy_string h) eqn:Hh; [done|].
    unfold truthy_string in Hh. apply negb_false_iff in Hh.
    by apply String.eqb_eq in Hh as ->.
  - intros mapping -> Hnone Hname. by apply read_property_undefined.
  - unfold restore. by intros ->.
  - unfold restore. intros sealed -> Hne.
    apply truthy_string_spec in Hne. rewrite Hne. simpl.
    split; [done|]. split; [done|]. split; [|done].
    apply store_unseal_calls.
  - unfold restore. intros name ->. simpl.
    split; [done|]. split; [|done]. apply store_unseal_member_calls.
Qed.



(** A request whose raw Cookie header carries a token sealed a second
    earlier: [restore] unseals it. *)
Lemma restore_unseals_nonempty_cookie_witness :
  let s := Demo.session_of (Demo.header_request Demo.sealed_bag) Demo.response
             (Demo.options_of Demo.pw_single (Some 3600) None) in
  readCookie s = Own Demo.sealed_bag
  ∧ result (restore 2000 s) = Ret true
  ∧ calls (restore 2000 s)
    = [UnsealCall 2000 Demo.sealed_bag (unsealPassword (store s))
         (sealOptions (store s))]
  ∧ unsealed (store (final (restore 2000 s))) = Demo.bag.
Proof.
  intros s.
  assert (Hc : readCookie s = Own Demo.sealed_bag) by (vm_compute; reflexivity).
  assert (Hne : Demo.sealed_bag ≠ "") by (vm_compute; discriminate).
  destruct (restore_unseals_nonempty_cookie 2000 s) as (_ & _ & _ & _ & Hu & _).
  destruct (Hu Demo.sealed_bag Hc Hne) as (Hr & _ & Hcalls & Hf).
  split; [exact Hc|]. split; [|split; [exact Hcalls|]].
  - rewrite Hr. vm_compute. reflexivity.
  - rewrite Hf. vm_compute. reflexivity.
Defined.

(** C8, counterexample. The request carries the cookie [sid] with the
    empty string as value. [restore] returns [false] and does not invoke
    the primitive, whereas unsealing that value invokes it and, on the
    reference primitive, raises: [restore] is not the result of unsealing
    the value that is present. *)
Lemma restore_skips_empty_cookie :
  let s := Demo.session_of Demo.empty_cookie_request Demo.response
             (Demo.options_of Demo.pw_single None None) in
  readCookie s = Own ""
  ∧ result (restore 0 s) = Ret false
  ∧ calls (restore 0 s) = []
  ∧ result (store_unseal 0 "" (store s))
    = Throw (Error "Incorrect number of sealed components")
  ∧ calls (store_unseal 0 "" (store s)) ≠ []
  ∧ ¬ (∀ sealed, readCookie s = Own sealed →
         result (restore 0 s) = result (store_unseal 0 sealed (store s))
         ∧ calls (restore 0 s) = calls (store_unseal 0 sealed (store s))).
Proof.
  intros s.
  assert (Hu : result (store_unseal 0 "" (store s))
               = Throw (Error "Incorrect number of sealed components"))
    by (vm_compute; reflexivity).
  split; [reflexivity|]. split; [reflexivity|]. split; [reflexivity|].
  split; [exact Hu|]. split.
  - rewrite store_unseal_calls. discriminate.
  - intros Hall. destruct (Hall "" eq_refl) as [Hr _].
    rewrite Hu in Hr. discriminate Hr.
Qed.

(** ** Writing the session cookie *)

Lemma setResponseCookie_values (res : Response) (c : string) :
  (¬ blank_set_cookie res →
   set_cookie_values (setResponseCookie res c) = set_cookie_values res ++ [c])
  ∧ (blank_set_cookie res → set_cookie_values (setResponseCookie res c) = [c])
  ∧ (∀ h, h ≠ "set-cookie" → setResponseCookie res c !! h = res !! h).
Proof.
  unfold set_cookie_values, setResponseCookie, blank_set_cookie.
  split; [|split].
  - intros Hnb. rewrite lookup_insert_eq.
    destruct (res !! "set-cookie") as [[n|v|l]|]; simpl; try done.
    + destruct (Z.eqb_spec n 0) as [->|?]; simpl; [|done].
      exfalso. apply Hnb. by right.
    + unfold truthy_string.
      destruct (String.eqb_spec v "") as [->|?]; simpl; [|done].
      exfalso. apply Hnb. by left.
  - intros [-> | ->]; by rewrite lookup_insert_eq.
  - intros h Hh. by rewrite lookup_insert_ne.
Qed.

Lemma writeCookie_returns {Value} `{!cookie.t} value (s : IronSession Value) :
  result (writeCookie value s) = Ret tt →
  ∃ c, cookie.serialize (cookieName s) value (write_options s value) = Ret c
       ∧ (String.length c ≤ 4096)%nat
       ∧ final (writeCookie value s) = set_res s (setResponseCookie (res s) c).
Proof.
  unfold writeCookie, write_options.
  destruct (cookie.serialize _ _ _) as [c|e]; [|done].
  destruct (Nat.ltb_spec MAX_COOKIE_SIZE (String.length c)) as [?|Hle]; [done|].
  intros _. exists c. unfold MAX_COOKIE_SIZE in Hle. done.
Qed.

Lemma writeCookie_throws {Value} `{!cookie.t} value (s : IronSession Value) e :
  result (writeCookie value s) = Throw e → final (writeCookie value s) = s.
Proof.
  unfold writeCookie.
  destruct (cookie.serialize _ _ _) as [c|e']; [|done].
  by destruct (Nat.ltb MAX_COOKIE_SIZE (String.length c)).
Qed.

Lemma writeCookie_calls {Value} `{!cookie.t} value (s : IronSession Value) :
  calls (writeCookie value s) = [].
Proof.
  unfold writeCookie.
  destruct (cookie.serialize _ _ _) as [c|e']; [|done].
  by destruct (Nat.ltb MAX_COOKIE_SIZE (String.length c)).
Qed.

Lemma unit_outcome_cases (o : outcome unit) : o = Ret tt ∨ ∃ e, o = Throw e.
Proof. destruct o as [[]|e]; eauto. Qed.

(** What a write of the session cookie does to the response: on normal
    return the response is the old one with one serialized cookie set by
    [setResponseCookie]; on a throw the response is the old one. *)
Lemma session_write_response {Value} `{!Iron.t Value} `{!cookie.t}
    (now : Z) (s : IronSession Value) (r : run Value (IronSession Value) unit) :
  r = save now s ∨ r = destroy s →
  (result r = Ret tt →
   ∃ value c,
     cookie.serialize (cookieName s) value (write_options s value) = Ret c
     ∧ (String.length c ≤ 4096)%nat
     ∧ res (final r) = setResponseCookie (res s) c)
  ∧ (result r ≠ Ret tt → res (final r) = res s).
Proof.
  intros [-> | ->].
  - unfold save. simpl.
    destruct (Iron.seal now _ _ _) as [sealed|e]; simpl.
    + set (s0 := set_store s (store s)). split.
      * intros Hr. apply writeCookie_returns in Hr as (c & Hc & Hlen & Hf).
        exists sealed, c. rewrite Hf. done.
      * intros Hr. destruct (unit_outcome_cases (result (writeCookie sealed s0)))
          as [?|[e He]]; [done|].
        by rewrite (writeCookie_throws _ _ _ He).
    + split; done.
  - unfold destroy. set (s0 := set_store s (store_clear (store s))). split.
    + intros Hr. apply writeCookie_returns in Hr as (c & Hc & Hlen & Hf).
      exists "", c. rewrite Hf. done.
    + intros Hr. destruct (unit_outcome_cases (result (writeCookie "" s0)))
        as [?|[e He]]; [done|].
      by rewrite (writeCookie_throws _ _ _ He).
Qed.

(** C9 (as amended). A write of the session cookie by [save] or
    [destroy] that returns appends one Set-Cookie value to the response:
    the values already present stay, unchanged and in their order, ahead
    of the new one (a numeric value as its decimal text), unless the whole
    Set-Cookie header was the empty string or the number 0, which is
    handled as no header and replaced by the new value. No other header
    changes, and a write that raises leaves the response as it was. *)
Theorem write_appends_set_cookie {Value} `{!Iron.t Value} `{!cookie.t}
    (now : Z) (s : IronSession Value) (r : run Value (IronSession Value) unit) :
  r = save now s ∨ r = destroy s →
  (result r = Ret tt →
   ∃ c, (¬ blank_set_cookie (res s) →
         set_cookie_values (res (final r)) = set_cookie_values (res s) ++ [c])
        ∧ (blank_set_cookie (res s) → set_cookie_values (res (final r)) = [c])
        ∧ (∀ h, h ≠ "set-cookie" → res (final r) !! h = res s !! h))
  ∧ (result r ≠ Ret tt → res (final r) = res s).
Proof.
  intros Hr. destruct (session_write_response now s r Hr) as [Hok Hthrow].
  split; [|exact Hthrow].
  intros Hret. destruct (Hok Hret) as (value & c & _ & _ & ->).
  exists c. apply setResponseCookie_values.
Qed.

(** Destroying a session on a response that already carries the cookie
    [theme] leaves that cookie in place ahead of the expiring one. *)
Lemma write_appends_set_cookie_witness :
  let s := Demo.session_of Demo.bare_request Demo.response
             (Demo.options_of Demo.pw_single None None) in
  result (destroy s) = Ret tt
  ∧ set_cookie_values (res (final (destroy s)))
    = [ Demo.other_cookie; "sid=; Max-Age=0; Path=/; HttpOnly; SameSite=Lax" ].
Proof.
  intros s.
  assert (Hret : result (destroy s) = Ret tt) by reflexivity.
  destruct (write_appends_set_cookie 0 s (destroy s) (or_intror eq_refl))
    as [Hok _].
  destruct (Hok Hret) as (c & Happ & _ & _).
  split; [exact Hret|]. vm_compute. reflexivity.
Defined.

(** C9, counterexample. On a response whose Set-Cookie header is the
    empty string, the value present before the write is not present after
    it: the header holds the new cookie only. *)
Lemma write_drops_blank_set_cookie :
  let s := Demo.session_of Demo.bare_request Demo.blank_response
             (Demo.options_of Demo.pw_single None None) in
  set_cookie_values (res s) = [ "" ]
  ∧ result (destroy s) = Ret tt
  ∧ set_cookie_values (res (final (destroy s)))
    = [ "sid=; Max-Age=0; Path=/; HttpOnly; SameSite=Lax" ]
  ∧ ¬ (∀ v, v ∈ set_cookie_values (res s) →
            v ∈ set_cookie_values (res (final (destroy s)))).
Proof.
  intros s.
  assert (Hafter : set_cookie_values (res (final (destroy s)))
                   = [ "sid=; Max-Age=0; Path=/; HttpOnly; SameSite=Lax" ])
    by (vm_compute; reflexivity).
  split; [reflexivity|]. split; [reflexivity|]. split; [exact Hafter|].
  intros Hall. specialize (Hall "" ltac:(by apply list_elem_of_singleton)).
  rewrite Hafter in Hall. apply list_elem_of_singleton in Hall. discriminate Hall.
Qed.

(** C6. When the serialized cookie that [save] produces from the sealed
    token is longer than 4096, [save] raises the error that names the
    length and the response, its Set-Cookie values included, is as
    before. Whatever [save] does write is a whole serialization of at
    most 4096 characters of the sealed token. *)
Theorem save_rejects_oversized_cookie {Value} `{!Iron.t Value} `{!cookie.t}
    (now : Z) (s : IronSession Value) (sealed serialized : string) :
  Iron.seal now (unsealed (store s)) (sealPassword (store s)) (sealOptions (store s))
  = Ret sealed →
  cookie.serialize (cookieName s) sealed (write_options s sealed) = Ret serialized →
  ((4096 < String.length serialized)%nat →
   result (save now s)
   = Throw (Error ("IronSession cookie length is too big: "
                   +:+ pretty (String.length serialized)))
   ∧ res (final (save now s)) = res s
   ∧ set_cookie_values (res (final (save now s))) = set_cookie_values (res s))
  ∧ ((String.length serialized ≤ 4096)%nat →
     result (save now s) = Ret tt
     ∧ res (final (save now s)) = setResponseCookie (res s) serialized).
Proof.
  intros Hseal Hser.
  assert (Hsave : result (save now s)
                  = result (writeCookie sealed (set_store s (store s)))
                  ∧ final (save now s)
                    = final (writeCookie sealed (set_store s (store s)))).
  { unfold save, store_seal. cbn [result final calls]. by rewrite Hseal. }
  destruct Hsave as [-> ->]. unfold writeCookie.
  change (if truthy_string sealed then _ else _) with (write_options s sealed).
  change (cookieName (set_store s (store s))) with (cookieName s).
  rewrite Hser. split; intros Hlen.
  - apply Nat.ltb_lt in Hlen. unfold MAX_COOKIE_SIZE. by rewrite Hlen.
  - apply Nat.ltb_ge in Hlen. unfold MAX_COOKIE_SIZE. by rewrite Hlen.
Qed.

(** A bag with an 80-character entry seals to a cookie of 5189
    characters, which [save] refuses. *)
Lemma save_rejects_oversized_cookie_witness :
  let s := set (Demo.session_of Demo.bare_request Demo.response
                  (Demo.options_of Demo.pw_single None None))
               "note" (Demo.replicate_string 80 "x") in
  result (save 0 s) = Throw (Error "IronSession cookie length is too big: 5189")
  ∧ set_cookie_values (res (final (save 0 s))) = [ Demo.other_cookie ].
Proof.
  intros s.
  destruct (Iron.seal 0 (unsealed (store s)) (sealPassword (store s))
              (sealOptions (store s))) as [sealed|e] eqn:Hseal;
    [|vm_compute in Hseal; discriminate Hseal].
  destruct (cookie.serialize (cookieName s) sealed (write_options s sealed))
    as [serialized|e] eqn:Hser.
  - pose proof (save_rejects_oversized_cookie 0 s sealed serialized Hseal Hser) as Hsave.
    vm_compute in Hseal. injection Hseal as <-.
    vm_compute in Hser. injection Hser as <-.
    destruct Hsave as [Hbig _].
    destruct Hbig as (Hr & _ & Hv); [vm_compute; lia|]. split.
    + rewrite Hr. vm_compute. reflexivity.
    + rewrite Hv. reflexivity.
  - vm_compute in Hseal. injection Hseal as <-.
    vm_compute in Hser. discriminate Hser.
Defined.

(** C7 (as amended). After [destroy] the bag is a fresh empty object: it
    has no own entry, so every [get] of a key that is not a property name
    of [Object.prototype] gives the absent value, and a [get] of such a
    name gives the inherited member. When [destroy] returns, the Set-Cookie value it has
    appended is the serialization of the cookie name with the empty
    string as value and max-age 0, whatever max-age the session was
    configured with; it returns whenever that serialization exists and is
    at most 4096 long. *)
Theorem destroy_clears_and_expires {Value} `{!cookie.t} (s : IronSession Value) :
  let r := destroy s in
  let expiring := CookieSerializeOptions.with_maxAge (cookieOptions s) 0 in
  unsealed (store (final r)) = ∅
  ∧ prototype (store (final r)) = ObjectPrototype
  ∧ (∀ key, key ∉ object_prototype_names → get (final r) key = Read Undefined)
  ∧ (∀ key, key ∈ object_prototype_names → get (final r) key = Read (Inherited key))
  ∧ CookieSerializeOptions.maxAge expiring = Some 0
  ∧ (result r = Ret tt →
     ∃ c, cookie.serialize (cookieName s) "" expiring = Ret c
          ∧ res (final r) = setResponseCookie (res s) c
          ∧ list.last (set_cookie_values (res (final r))) = Some c)
  ∧ (∀ c, cookie.serialize (cookieName s) "" expiring = Ret c →
          (String.length c ≤ 4096)%nat → result r = Ret tt)
  ∧ (∀ m, let s' := {| store := store s; req := req s; res := res s;
                       cookieName := cookieName s;
                       cookieOptions :=
                         CookieSerializeOptions.with_maxAge (cookieOptions s) m |} in
          result (destroy s') = result r
          ∧ res (final (destroy s')) = res (final r)).
Proof.
  intros r expiring. subst r expiring. unfold destroy.
  set (s0 := set_store s (store_clear (store s))).
  assert (Hst : store (final (writeCookie "" s0)) = store_clear (store s)).
  { unfold writeCookie. destruct (cookie.serialize _ _ _) as [c|e]; [|done].
    by destruct (Nat.ltb MAX_COOKIE_SIZE (String.length c)). }
  split; [by rewrite Hst|]. split; [by rewrite Hst|]. split.
  { intros key Hkey. unfold get, store_get. rewrite Hst. simpl.
    rewrite lookup_empty. unfold inherited_name. by rewrite bool_decide_false. }
  split.
  { intros key Hkey. unfold get, store_get. rewrite Hst. simpl.
    rewrite lookup_empty. unfold inherited_name. by rewrite bool_decide_true. }
  split; [done|]. split; [|split].
  - intros Hr. apply writeCookie_returns in Hr as (c & Hc & _ & Hf).
    exists c. split; [exact Hc|]. rewrite Hf. split; [done|].
    unfold set_cookie_values, setResponseCookie. simpl.
    rewrite lookup_insert_eq. simpl. apply last_snoc.
  - intros c Hc Hlen. unfold writeCookie. simpl. rewrite Hc.
    unfold MAX_COOKIE_SIZE. replace (4096 <? String.length c)%nat with false; [done|].
    symmetry. apply Nat.ltb_ge. exact Hlen.
  - intros m. unfold writeCookie. simpl. split.
    + destruct (cookie.serialize _ _ _) as [c|e]; [|done].
      by destruct (Nat.ltb MAX_COOKIE_SIZE (String.length c)).
    + destruct (cookie.serialize _ _ _) as [c|e]; [|done].
      by destruct (Nat.ltb MAX_COOKIE_SIZE (String.length c)).
Qed.

(** A session configured with max-age 5000 whose bag holds an entry:
    after [destroy] the entry is gone and the cookie written is the
    expiring one. *)
Lemma destroy_clears_and_expires_witness :
  let s := set (Demo.session_of Demo.bare_request ∅
                  (Demo.options_of Demo.pw_single None (Some 5000)))
               "user" "alice" in
  get s "user" = Read (Own "alice")
  ∧ CookieSerializeOptions.maxAge (cookieOptions s) = Some 5000
  ∧ result (destroy s) = Ret tt
  ∧ get (final (destroy s)) "user" = Read Undefined
  ∧ set_cookie_values (res (final (destroy s)))
    = [ "sid=; Max-Age=0; Path=/; HttpOnly; SameSite=Lax" ].
Proof.
  intros s.
  destruct (destroy_clears_and_expires s)
    as (_ & _ & Hget & _ & _ & Hret & Htotal & _).
  assert (Hr : result (destroy s) = Ret tt).
  { apply (Htotal "sid=; Max-Age=0; Path=/; HttpOnly; SameSite=Lax");
      [reflexivity | vm_compute; lia]. }
  split; [reflexivity|]. split; [reflexivity|]. split; [exact Hr|].
  split; [apply Hget; apply (bool_decide_unpack _); vm_compute; reflexivity|].
  destruct (Hret Hr) as (c & Hc & Hres & _).
  rewrite Hres. vm_compute in Hc. injection Hc as <-. reflexivity.
Defined.

(** C7, counterexample. After [destroy], [get] of the key [toString]
    gives the member of [Object.prototype] of that name, not the absent
    value: not every [get] gives the absent value. *)
Lemma destroy_leaves_inherited_members :
  let s := Demo.session_of Demo.bare_request ∅
             (Demo.options_of Demo.pw_single None None) in
  result (destroy s) = Ret tt
  ∧ unsealed (store (final (destroy s))) = ∅
  ∧ get (final (destroy s)) "toString" = Read (Inherited "toString")
  ∧ ¬ (∀ key, get (final (destroy s)) key = Read Undefined).
Proof.
  intros s.
  split; [reflexivity|]. split; [reflexivity|]. split; [reflexivity|].
  intros Hall. specialize (Hall "toString"). discriminate Hall.
Qed.

(** ** The reference primitive keeps the contract *)

Lemma bits_to_pos_to_bits (p : positive) :
  RefIron.bits_to_pos (RefIron.pos_to_bits p) = Some p.
Proof. induction p as [p IH|p IH|]; simpl; by rewrite ?IH. Qed.

Lemma strip_prefix_append (p s : string) :
  RefIron.strip_prefix p (p +:+ s) = Some s.
Proof.
  induction p as [|a p IH]; [reflexivity|].
  change (String a p +:+ s) with (String a (p +:+ s)). simpl.
  by rewrite Ascii.eqb_refl.
Qed.

Lemma parse_token_encode {Value} `{Countable Value}
    (t : string * string * option Z * gmap string Value) :
  RefIron.parse_token (RefIron.macPrefix +:+ RefIron.pos_to_bits (encode t)) = Some t.
Proof.
  unfold RefIron.parse_token. rewrite strip_prefix_append. simpl.
  rewrite bits_to_pos_to_bits. simpl. apply decode_encode.
Qed.

Lemma RefIron_seal_inv {Value} `{Countable Value} now (object : gmap string Value)
    pw options sealed :
  RefIron.seal now object pw options = Ret sealed →
  RefIron.accepts pw = true
  ∧ sealed = RefIron.macPrefix +:+ RefIron.pos_to_bits
      (encode (id pw, secret pw,
               if Z.eqb (SealOptions.ttl options) 0 then None
               else Some (now + SealOptions.localtimeOffsetMsec options
                          + SealOptions.ttl options),
               object)).
Proof.
  unfold RefIron.seal, RefIron.accepts.
  destruct (RefIron.valid_id (id pw)); [|done].
  destruct (Nat.eqb (String.length (secret pw)) 0); [done|].
  destruct (Nat.leb 32 (String.length (secret pw))); [|done].
  by intros [= <-].
Qed.

Lemma RefIron_laws {Value} `{Countable Value} : IronLaws Value RefIron.accepts.
Proof.
  split.
  - intros now object pw options Hacc. simpl. unfold RefIron.seal.
    unfold RefIron.accepts in Hacc. apply andb_true_iff in Hacc as [Hid Hlen].
    rewrite Hid, Hlen.
    destruct (Nat.eqb_spec (String.length (secret pw)) 0) as [H0|_]; [|by eexists].
    rewrite H0 in Hlen. done.
  - intros now now' object pw options hash sealed _ Hseal Hhash Hfresh. simpl in *.
    apply RefIron_seal_inv in Hseal as [_ ->].
    unfold RefIron.unseal. rewrite parse_token_encode, Hhash, String.eqb_refl.
    replace (RefIron.expired options now' _) with false; [done|].
    symmetry. unfold RefIron.expired.
    destruct (Z.eqb_spec (SealOptions.ttl options) 0) as [?|Hne]; [done|].
    apply Z.leb_gt. destruct Hfresh as [?|Hlt]; [done|lia].
Qed.

(** ** Round trip *)

Lemma seal_password_current {Value} `{!Iron.t Value} pw ttl (st : IronStore Value) :
  new_IronStore pw ttl = Ret st →
  first_secret_current pw →
  unsealPassword st !! id (sealPassword st) = Some (secret (sealPassword st)).
Proof.
  intros Hst Hcur. apply new_IronStore_fields in Hst as (_ & Hsp & Hup & _).
  destruct pw as [[|c s]|[|first rest]]; [done| |done|].
  - injection Hsp as <-. injection Hup as <-. simpl. apply lookup_singleton_eq.
  - injection Hsp as <-.
    change (last_secret (id first) (first :: rest) = Some (secret first)) in Hcur.
    assert (Hup' : Ret (assign_all (first :: rest) ∅)
                   = Ret (unsealPassword st)) by exact Hup.
    assert (Heq : assign_all (first :: rest) ∅ = unsealPassword st) by congruence.
    by rewrite <- Heq, assign_all_lookup, Hcur.
Qed.

Lemma distinct_ids_current (l : list IdSecret) :
  NoDup (id <$> l) → default "" (id <$> head l) ≠ "__proto__" →
  first_secret_current (PwList l).
Proof.
  destruct l as [|first rest]; [done|]. intros Hnd Hp.
  change (last_secret (id first) (first :: rest) = Some (secret first)).
  apply last_secret_NoDup; [done| |done]. apply elem_of_cons. by left.
Qed.

(** C2 (as amended). Take any bag [B], password material that is not
    empty, for whose seal form the primitive keeps its contract, and for
    which the unseal mapping holds the seal secret under the seal id: the
    id of the first element is not [__proto__] and the last list element
    under that id carries the first element's secret (so for every secret
    string, whose unseal key "1" is the seal id "1", and for every list of
    pairwise distinct ids whose first id is not [__proto__]), and a
    time-to-live under which the seal has not expired when it is
    unsealed. Then [seal] on a store holding [B] returns a token, and
    [unseal] of that token on a store configured with the same password
    and time-to-live returns [true] and leaves that store holding [B]. *)
Theorem seal_unseal_roundtrip {Value} `{!Iron.t Value}
    (accepts : IronSealPassword → bool) (laws : IronLaws Value accepts)
    (pw : IronDenormalizedPassword) (ttl : Z) (st : IronStore Value)
    (B bag' : gmap string Value) (now now' : Z) :
  new_IronStore pw ttl = Ret st →
  accepts (sealPassword st) = true →
  first_secret_current pw →
  unexpired (sealOptions st) now now' →
  ∃ sealed,
    result (store_seal now (set_unsealed st B)) = Ret sealed
    ∧ result (store_unseal now' sealed (set_unsealed st bag')) = Ret true
    ∧ unsealed (final (store_unseal now' sealed (set_unsealed st bag'))) = B.
Proof.
  intros Hst Hacc Hcur Hfresh.
  destruct (seal_accepted now B (sealPassword st) (sealOptions st) Hacc)
    as [sealed Hseal].
  exists sealed. split; [exact Hseal|].
  pose proof (seal_password_current pw ttl st Hst Hcur) as Hlook.
  pose proof (unseal_seal now now' B (sealPassword st) (sealOptions st)
                (unsealPassword st) sealed Hacc Hseal Hlook Hfresh) as Hunseal.
  unfold store_unseal. simpl. rewrite Hunseal. done.
Qed.

(** The rotation list, one hour, sealed at 1000 and unsealed at 2000 on a
    store that held another bag. *)
Lemma seal_unseal_roundtrip_witness :
  ∃ sealed,
    result (store_seal 1000
              (set_unsealed (Demo.store_of (PwList Demo.rotation) 3600) Demo.bag))
    = Ret sealed
    ∧ result (store_unseal 2000 sealed
                (set_unsealed (Demo.store_of (PwList Demo.rotation) 3600)
                   Demo.big_bag))
      = Ret true
    ∧ unsealed (final (store_unseal 2000 sealed
                         (set_unsealed (Demo.store_of (PwList Demo.rotation) 3600)
                            Demo.big_bag)))
      = Demo.bag.
Proof.
  apply (seal_unseal_roundtrip (Value := string) RefIron.accepts RefIron_laws
           (PwList Demo.rotation) 3600).
  - reflexivity.
  - vm_compute. reflexivity.
  - vm_compute. reflexivity.
  - right. vm_compute. reflexivity.
Defined.

(** C2, counterexample. The password list holds two secrets under one
    id: the store seals with the first and keeps the second for
    unsealing. On the reference primitive, [unseal] of the token that
    [seal] has just made returns [false], and the bag is not the sealed
    one. *)
Lemma roundtrip_fails_on_repeated_id :
  let st := Demo.store_of (PwList Demo.repeated) 3600 in
  new_IronStore (PwList Demo.repeated) 3600 = Ret st
  ∧ RefIron.accepts (sealPassword st) = true
  ∧ secret (sealPassword st) = Demo.secret_a
  ∧ unsealPassword st !! id (sealPassword st) = Some Demo.secret_b
  ∧ ∃ sealed,
      result (store_seal 1000 (set_unsealed st Demo.bag)) = Ret sealed
      ∧ result (store_unseal 1000 sealed st) = Ret false
      ∧ unsealed (final (store_unseal 1000 sealed st)) = ∅.
Proof.
  intros st.
  split; [reflexivity|]. split; [vm_compute; reflexivity|].
  split; [reflexivity|]. split; [vm_compute; reflexivity|].
  destruct (result (store_seal 1000 (set_unsealed st Demo.bag)))
    as [sealed|e] eqn:Hseal; [|vm_compute in Hseal; discriminate Hseal].
  exists sealed. split; [reflexivity|].
  vm_compute in Hseal. injection Hseal as <-.
  split; vm_compute; reflexivity.
Qed.

(** * Further properties of the session code *)

(** ** The accessors of the bag *)

Lemma update_bag_same {Value} (st : IronStore Value) :
  update_bag st (unsealed st) (prototype st) = st.
Proof. by destruct st. Qed.

(** X1. For every key other than [__proto__]: reading the key after
    writing it gives the written value; writing it changes no other key,
    replaces an earlier value of the key, and touches neither the
    prototype of the bag, the request, the response nor the
    configuration. *)
Theorem set_then_get {Value} `{!JsValue.t Value} (s : IronSession Value)
    (key : string) (value : Value) :
  key ≠ "__proto__" →
  get (set s key value) key = Read (Own value)
  ∧ (∀ other, other ≠ key → get (set s key value) other = get s other)
  ∧ (∀ earlier, set (set s key earlier) key value = set s key value)
  ∧ prototype (store (set s key value)) = prototype (store s)
  ∧ res (set s key value) = res s
  ∧ same_configuration s (set s key value).
Proof.
  intros Hkey. apply String.eqb_neq in Hkey.
  unfold get, set, store_get, store_set, same_configuration.
  rewrite Hkey. simpl. rewrite lookup_insert_eq.
  split; [done|]. split.
  { intros other Hne. by rewrite lookup_insert_ne. }
  split; [|done].
  intros earlier. unfold set_store, update_bag. simpl.
  by rewrite insert_insert_eq.
Qed.

(** The key [toString], which the bag inherits, can be written and read
    like any other. *)
Lemma set_then_get_witness :
  let s := Demo.session_of Demo.bare_request Demo.response
             (Demo.options_of Demo.pw_single None None) in
  get s "toString" = Read (Inherited "toString")
  ∧ get (set s "toString" "mine") "toString" = Read (Own "mine")
  ∧ get (set s "toString" "mine") "valueOf" = Read (Inherited "valueOf").
Proof.
  intros s.
  destruct (set_then_get s "toString" "mine") as (Hget & Hother & _);
    [discriminate|].
  split; [reflexivity|]. split; [exact Hget|].
  rewrite Hother by discriminate. reflexivity.
Defined.

(** X2. Removing a key removes the own entry only: the key no longer
    reads as an own value, and every other key and the prototype are as
    before. Removing a key that has no own entry leaves the bag as it is;
    removing a key other than [__proto__] right after adding it to a bag
    that had no own entry for it gives the bag back. [clear] puts a fresh
    empty object in place: every key that is not a property name of
    [Object.prototype] reads as absent. None of them touches the response
    or the configuration. *)
Theorem unset_and_clear {Value} `{!JsValue.t Value} (s : IronSession Value)
    (key : string) :
  (∀ v, get (unset s key) key ≠ Read (Own v))
  ∧ (∀ other, other ≠ key → get (unset s key) other = get s other)
  ∧ (unsealed (store s) !! key = None → store (unset s key) = store s)
  ∧ (∀ value, key ≠ "__proto__" → unsealed (store s) !! key = None →
       store (unset (set s key value) key) = store s)
  ∧ unsealed (store (clear s)) = ∅
  ∧ prototype (store (clear s)) = ObjectPrototype
  ∧ (∀ other, other ∉ object_prototype_names → get (clear s) other = Read Undefined)
  ∧ res (unset s key) = res s ∧ res (clear s) = res s
  ∧ same_configuration s (unset s key) ∧ same_configuration s (clear s).
Proof.
  unfold get, unset, set, clear, store_get, store_unset, store_clear,
    same_configuration.
  simpl. split.
  { intros v. rewrite lookup_delete_eq.
    destruct (prototype (store s)); [destruct (inherited_name key)| |]; done. }
  split.
  { intros other Hne. by rewrite lookup_delete_ne. }
  split.
  { intros Hnone. rewrite delete_id by done. apply update_bag_same. }
  split.
  { intros value Hkey Hnone. apply String.eqb_neq in Hkey.
    unfold store_set. rewrite Hkey. unfold update_bag. simpl.
    rewrite delete_insert_eq, delete_id by done.
    apply (update_bag_same (store s)). }
  split; [done|]. split; [done|]. split; [|done].
  intros other Hother. rewrite lookup_empty. unfold inherited_name.
  by rewrite bool_decide_false.
Qed.

(** A bag with one entry: removing another key keeps the entry, removing
    the entry's key leaves no own value under it. *)
Lemma unset_and_clear_witness :
  let s := set (Demo.session_of Demo.bare_request Demo.response
                  (Demo.options_of Demo.pw_single None None)) "user" "alice" in
  store (unset s "cart") = store s
  ∧ get (unset s "user") "user" = Read Undefined.
Proof.
  intros s.
  destruct (unset_and_clear s "cart") as (_ & _ & Hid & _).
  destruct (unset_and_clear s "user") as (Hgone & _).
  split; [apply Hid; reflexivity | reflexivity].
Defined.

(** ** Construction *)

Lemma new_IronStore_fresh {Value} `{!Iron.t Value} pw ttl (st : IronStore Value) :
  new_IronStore pw ttl = Ret st →
  unsealed st = ∅ ∧ prototype st = ObjectPrototype.
Proof.
  unfold new_IronStore. intros Hst.
  destruct (normalizeSealPassword pw) as [sp|]; [|done].
  destruct (normalizeUnsealPassword pw) as [up|]; [|done].
  injection Hst as <-. done.
Qed.

(** X3. [new IronStore(password, ttl)] raises exactly when the password
    is the empty string or the empty list, and then with the
    empty-password error; a store it returns holds a fresh empty bag: no
    own entry, so every key that is not a property name of
    [Object.prototype] reads as absent. *)
Theorem new_IronStore_outcome {Value} `{!Iron.t Value}
    (pw : IronDenormalizedPassword) (ttl : Z) :
  ((pw = PwString "" ∨ pw = PwList [])
   ↔ ∃ e, new_IronStore (Value := Value) pw ttl = Throw e)
  ∧ (∀ e, new_IronStore (Value := Value) pw ttl = Throw e →
          e = Error "Empty IronStore argument: `password`")
  ∧ (∀ st : IronStore Value, new_IronStore pw ttl = Ret st →
          unsealed st = ∅
          ∧ prototype st = ObjectPrototype
          ∧ ∀ key, key ∉ object_prototype_names → store_get st key = Read Undefined).
Proof.
  split; [|split].
  - split.
    + intros [-> | ->]; by eexists.
    + intros [e He]. destruct pw as [[|c s]|[|first rest]]; try done; eauto.
  - intros e He. destruct pw as [[|c s]|[|first rest]]; try done.
    all: by injection He as <-.
  - intros st Hst. pose proof (new_IronStore_fresh pw ttl st Hst) as [Hbag Hproto].
    split; [done|]. split; [done|]. intros key Hkey.
    unfold store_get, inherited_name.
    by rewrite Hbag, Hproto, lookup_empty, bool_decide_false.
Qed.

(** X4. The cookie name is the explicit option when that is a non-empty
    string; otherwise (no option, or the empty string) it is the value of
    the environment variable IRON_SESSION_COOKIE_NAME when that is set and
    not empty; otherwise the missing-option error is raised. A name that
    is returned is never empty. *)
Theorem getCookieName_precedence (env : Env)
    (sessionOptions : option IronSessionOptions.t) :
  let explicit := sessionOptions ≫= IronSessionOptions.cookieName in
  let variable := env !! "IRON_SESSION_COOKIE_NAME" in
  (∀ name, explicit = Some name → name ≠ "" →
           getCookieName env sessionOptions = Ret name)
  ∧ (explicit = None ∨ explicit = Some "" →
     (∀ name, variable = Some name → name ≠ "" →
              getCookieName env sessionOptions = Ret name)
     ∧ (variable = None ∨ variable = Some "" →
        getCookieName env sessionOptions
        = Throw (Error "Missing IronSession option: `cookieName`")))
  ∧ (∀ name, getCookieName env sessionOptions = Ret name → name ≠ "").
Proof.
  intros explicit variable. subst explicit variable. unfold getCookieName.
  destruct (sessionOptions ≫= IronSessionOptions.cookieName) as [[|c given]|];
    simpl.
  - split; [by intros ? [= <-] ?|]. split.
    + intros _. split.
      * intros name -> Hne. apply truthy_string_spec in Hne. by rewrite Hne.
      * intros [-> | ->]; done.
    + intros name. destruct (env !! "IRON_SESSION_COOKIE_NAME") as [v|]; [|done].
      destruct (truthy_string v) eqn:Hv; [|done].
      intros [= <-]. by apply truthy_string_spec.
  - split; [by intros ? [= <-] ?|]. split.
    + intros [?|?]; done.
    + by intros name [= <-].
  - split; [done|]. split.
    + intros _. split.
      * intros name -> Hne. apply truthy_string_spec in Hne. by rewrite Hne.
      * intros [-> | ->]; done.
    + intros name. destruct (env !! "IRON_SESSION_COOKIE_NAME") as [v|]; [|done].
      destruct (truthy_string v) eqn:Hv; [|done].
      intros [= <-]. by apply truthy_string_spec.
Qed.

(** X5. The password is the explicit option when that is a non-empty
    string or a non-empty list; otherwise (no option, the empty string or
    the empty list) it is the single-secret string held by the environment
    variable IRON_SESSION_PASSWORD when that is set and not empty;
    otherwise the missing-option error is raised. A password that is
    returned is never empty. *)
Theorem getPassword_precedence (env : Env)
    (sessionOptions : option IronSessionOptions.t) :
  let explicit := sessionOptions ≫= IronSessionOptions.password in
  let variable := env !! "IRON_SESSION_PASSWORD" in
  (∀ pw, explicit = Some pw → pw_length pw ≠ 0%nat →
         getPassword env sessionOptions = Ret pw)
  ∧ (explicit = None ∨ explicit = Some (PwString "") ∨ explicit = Some (PwList []) →
     (∀ secret, variable = Some secret → secret ≠ "" →
                getPassword env sessionOptions = Ret (PwString secret))
     ∧ (variable = None ∨ variable = Some "" →
        getPassword env sessionOptions
        = Throw (Error "Missing IronSession option: `password`")))
  ∧ (∀ pw, getPassword env sessionOptions = Ret pw → pw_length pw ≠ 0%nat).
Proof.
  intros explicit variable. subst explicit variable. unfold getPassword.
  assert (Henv : ∀ pw,
    match env !! "IRON_SESSION_PASSWORD" with
    | Some envPassword =>
        if truthy_string envPassword then Ret (PwString envPassword)
        else Throw (Error "Missing IronSession option: `password`")
    | None => Throw (Error "Missing IronSession option: `password`")
    end = Ret pw → pw_length pw ≠ 0%nat).
  { intros pw. destruct (env !! "IRON_SESSION_PASSWORD") as [v|]; [|done].
    destruct (truthy_string v) eqn:Hv; [|done].
    intros [= <-]. apply truthy_string_spec in Hv. by destruct v. }
  assert (Hfall :
    (∀ secret, env !! "IRON_SESSION_PASSWORD" = Some secret → secret ≠ "" →
       match env !! "IRON_SESSION_PASSWORD" with
       | Some envPassword =>
           if truthy_string envPassword then Ret (PwString envPassword)
           else Throw (Error "Missing IronSession option: `password`")
       | None => Throw (Error "Missing IronSession option: `password`")
       end = Ret (PwString secret))
    ∧ (env !! "IRON_SESSION_PASSWORD" = None ∨ env !! "IRON_SESSION_PASSWORD" = Some "" →
       match env !! "IRON_SESSION_PASSWORD" with
       | Some envPassword =>
           if truthy_string envPassword then Ret (PwString envPassword)
           else Throw (Error "Missing IronSession option: `password`")
       | None => Throw (Error "Missing IronSession option: `password`")
       end = Throw (Error "Missing IronSession option: `password`"))).
  { split.
    - intros secret -> Hne. apply truthy_string_spec in Hne. by rewrite Hne.
    - intros [-> | ->]; done. }
  destruct (sessionOptions ≫= IronSessionOptions.password)
    as [[[|c s]|[|first rest]]|]; simpl.
  - split; [by intros ? [= <-] ?|]. split; [by intros _|apply Henv].
  - split; [by intros ? [= <-] ?|]. split; [|by intros ? [= <-]].
    intros [?|[?|?]]; done.
  - split; [by intros ? [= <-] ?|]. split; [by intros _|apply Henv].
  - split; [by intros ? [= <-] ?|]. split; [|by intros ? [= <-]].
    intros [?|[?|?]]; done.
  - split; [done|]. split; [by intros _|apply Henv].
Qed.

Lemma getPassword_nonempty (env : Env) (sessionOptions : option IronSessionOptions.t)
    (pw : IronDenormalizedPassword) :
  getPassword env sessionOptions = Ret pw → pw_length pw ≠ 0%nat.
Proof.
  unfold getPassword.
  assert (Henv : ∀ pw',
    match env !! "IRON_SESSION_PASSWORD" with
    | Some envPassword =>
        if truthy_string envPassword then Ret (PwString envPassword)
        else Throw (Error "Missing IronSession option: `password`")
    | None => Throw (Error "Missing IronSession option: `password`")
    end = Ret pw' → pw_length pw' ≠ 0%nat).
  { intros pw'. destruct (env !! "IRON_SESSION_PASSWORD") as [v|]; [|done].
    destruct (truthy_string v) eqn:Hv; [|done].
    intros [= <-]. apply truthy_string_spec in Hv. by destruct v. }
  destruct (sessionOptions ≫= IronSessionOptions.password)
    as [[[|c s]|[|first rest]]|]; simpl; try apply Henv; by intros [= <-].
Qed.

(** X6. Constructing a session raises only one of the two missing-option
    errors, and the one about the cookie name whenever the name cannot be
    resolved, also when the password cannot either: the empty-password
    error of the store is never raised through a session. When both
    resolve, the session is bound to the given request and response, its
    bag has no own entry, and its store is the one constructed from the
    resolved password and time-to-live. *)
Theorem new_IronSession_outcome {Value} `{!Iron.t Value} (env : Env)
    (rq : Request) (rs : Response) (sessionOptions : option IronSessionOptions.t) :
  (∀ e, new_IronSession (Value := Value) env rq rs sessionOptions = Throw e →
        e = Error "Missing IronSession option: `cookieName`"
        ∨ e = Error "Missing IronSession option: `password`")
  ∧ (∀ e, getCookieName env sessionOptions = Throw e →
          new_IronSession (Value := Value) env rq rs sessionOptions
          = Throw (Error "Missing IronSession option: `cookieName`"))
  ∧ (∀ name pw,
       getCookieName env sessionOptions = Ret name →
       getPassword env sessionOptions = Ret pw →
       ∃ s : IronSession Value,
         new_IronSession env rq rs sessionOptions = Ret s
         ∧ req s = rq ∧ res s = rs ∧ cookieName s = name
         ∧ unsealed (store s) = ∅
         ∧ new_IronStore pw (resolved_ttl sessionOptions) = Ret (store s)).
Proof.
  assert (Hname : ∀ e, getCookieName env sessionOptions = Throw e →
                       e = Error "Missing IronSession option: `cookieName`").
  { unfold getCookieName. intros e.
    destruct (sessionOptions ≫= IronSessionOptions.cookieName) as [[|c given]|];
      simpl; try done.
    all: destruct (env !! "IRON_SESSION_COOKIE_NAME") as [v|];
      [destruct (truthy_string v)|]; try done; by intros [= <-]. }
  assert (Hpw : ∀ e, getPassword env sessionOptions = Throw e →
                     e = Error "Missing IronSession option: `password`").
  { unfold getPassword. intros e.
    destruct (sessionOptions ≫= IronSessionOptions.password)
      as [[[|c s]|[|first rest]]|]; simpl; try done.
    all: destruct (env !! "IRON_SESSION_PASSWORD") as [v|];
      [destruct (truthy_string v)|]; try done; by intros [= <-]. }
  assert (Hstore : ∀ pw, getPassword env sessionOptions = Ret pw →
            ∃ st : IronStore Value,
              new_IronStore pw (resolved_ttl sessionOptions) = Ret st).
  { intros pw Hp. apply new_IronStore_nonempty.
    by apply (getPassword_nonempty env sessionOptions). }
  split; [|split].
  - intros e. unfold new_IronSession.
    destruct (getCookieName env sessionOptions) as [name|e1] eqn:Hn; simpl.
    + destruct (getPassword env sessionOptions) as [pw|e2] eqn:Hp; simpl.
      * destruct (Hstore pw eq_refl) as [st ->]. done.
      * intros [= <-]. right. by apply Hpw.
    + intros [= <-]. left. by apply Hname.
  - intros e He. unfold new_IronSession. rewrite He. simpl.
    by rewrite (Hname e He).
  - intros name pw Hn Hp. unfold new_IronSession. rewrite Hn, Hp. simpl.
    destruct (Hstore pw Hp) as [st Hst]. rewrite Hst. simpl.
    eexists. split; [done|]. simpl. repeat split; try done.
    by apply new_IronStore_fields in Hst as (-> & _).
Qed.

(** No cookie name anywhere and no password either: the error names the
    cookie name. With both given, the session holds nothing. *)
Lemma new_IronSession_outcome_witness :
  new_IronSession (Value := string) ∅ Demo.bare_request ∅ None
  = Throw (Error "Missing IronSession option: `cookieName`")
  ∧ ∃ s : IronSession string,
      new_IronSession ∅ Demo.bare_request ∅
        (Demo.options_of Demo.pw_single None None) = Ret s
      ∧ cookieName s = "sid" ∧ unsealed (store s) = ∅.
Proof.
  destruct (new_IronSession_outcome (Value := string) ∅ Demo.bare_request ∅ None)
    as (_ & Hname & _).
  destruct (new_IronSession_outcome (Value := string) ∅ Demo.bare_request ∅
              (Demo.options_of Demo.pw_single None None)) as (_ & _ & Hok).
  split.
  - apply (Hname (Error "Missing IronSession option: `cookieName`")). reflexivity.
  - destruct (Hok "sid" Demo.pw_single eq_refl eq_refl)
      as (s & Hs & _ & _ & Hn & Hbag & _).
    exists s. split; [exact Hs|]. split; [exact Hn | exact Hbag].
Defined.

(** X7. The cookie attributes of a session: every attribute the caller
    gives, max-age apart, is kept; an attribute the caller leaves out gets
    its default, which is http-only, path [/], same-site lax, and secure
    exactly when NODE_ENV is [production]; domain and expiry have no
    default; a max-age is always set. *)
Theorem cookie_option_defaults (env : Env)
    (sessionOptions : option IronSessionOptions.t) :
  let given := default CookieSerializeOptions.none
                 (sessionOptions ≫= IronSessionOptions.cookieOptions) in
  let o := getCookieSerializeOptions env sessionOptions in
  CookieSerializeOptions.httpOnly o
  = Some (default true (CookieSerializeOptions.httpOnly given))
  ∧ CookieSerializeOptions.path o
    = Some (default "/" (CookieSerializeOptions.path given))
  ∧ CookieSerializeOptions.sameSite o
    = Some (default Lax (CookieSerializeOptions.sameSite given))
  ∧ CookieSerializeOptions.secure o
    = Some (default (bool_decide (env !! "NODE_ENV" = Some "production"))
              (CookieSerializeOptions.secure given))
  ∧ CookieSerializeOptions.domain o = CookieSerializeOptions.domain given
  ∧ CookieSerializeOptions.expires o = CookieSerializeOptions.expires given
  ∧ is_Some (CookieSerializeOptions.maxAge o).
Proof.
  intros given o. subst given o. unfold getCookieSerializeOptions.
  destruct (sessionOptions ≫= IronSessionOptions.cookieOptions)
    as [[dom ex ho ma pa ss se]|]; simpl.
  - destruct dom, ex, ho, pa, ss, se; simpl; repeat split; by eexists.
  - repeat split; by eexists.
Qed.

(** ** Methods *)

Lemma store_unseal_configuration {Value} `{!Iron.t Value} now sealed
    (st : IronStore Value) :
  sealPassword (final (store_unseal now sealed st)) = sealPassword st
  ∧ unsealPassword (final (store_unseal now sealed st)) = unsealPassword st
  ∧ sealOptions (final (store_unseal now sealed st)) = sealOptions st.
Proof.
  unfold store_unseal.
  destruct (Iron.unseal _ _ _ _) as [payload|[message| |]]; [done| |done|done].
  by destruct (rethrown message).
Qed.

Lemma store_unseal_member_configuration {Value} `{!Iron.t Value} now name
    (st : IronStore Value) :
  sealPassword (final (store_unseal_member now name st)) = sealPassword st
  ∧ unsealPassword (final (store_unseal_member now name st)) = unsealPassword st
  ∧ sealOptions (final (store_unseal_member now name st)) = sealOptions st.
Proof.
  unfold store_unseal_member.
  destruct (Iron.unseal_member _ _ _ _) as [payload|[message| |]]; [done| |done|done].
  by destruct (rethrown message).
Qed.

(** [restore] changes nothing of a session but the bag of its store. *)
Lemma restore_final {Value} `{!Iron.t Value} `{!cookie.t} now (s : IronSession Value) :
  res (final (restore now s)) = res s
  ∧ same_configuration s (final (restore now s)).
Proof.
  unfold restore, same_configuration.
  destruct (readCookie s) as [|sealed|name]; [done| |].
  - destruct (truthy_string sealed); [|done]. simpl.
    destruct (store_unseal_configuration now sealed (store s)) as (-> & -> & ->).
    done.
  - simpl.
    destruct (store_unseal_member_configuration now name (store s))
      as (-> & -> & ->).
    done.
Qed.

Lemma writeCookie_final {Value} `{!cookie.t} value (s : IronSession Value) :
  store (final (writeCookie value s)) = store s
  ∧ req (final (writeCookie value s)) = req s
  ∧ cookieName (final (writeCookie value s)) = cookieName s
  ∧ cookieOptions (final (writeCookie value s)) = cookieOptions s
  ∧ (res (final (writeCookie value s)) = res s
     ∨ ∃ c, res (final (writeCookie value s)) = setResponseCookie (res s) c).
Proof.
  unfold writeCookie.
  destruct (cookie.serialize _ _ _) as [c|e]; [|by repeat split; try left].
  destruct (Nat.ltb MAX_COOKIE_SIZE (String.length c)); simpl.
  - by repeat split; try left.
  - repeat split; try done. right. by exists c.
Qed.

(** X8. What the three methods leave alone. [restore] never touches the
    response; [save] never changes the store and invokes the primitive
    exactly once, to seal the bag as it is; [destroy] never invokes the
    primitive. None of them changes the request, the cookie name, the
    cookie attributes, the passwords or the seal options. *)
Theorem method_frames {Value} `{!Iron.t Value} `{!cookie.t}
    (now : Z) (s : IronSession Value) :
  res (final (restore now s)) = res s
  ∧ same_configuration s (final (restore now s))
  ∧ store (final (save now s)) = store s
  ∧ calls (save now s)
    = [SealCall now (unsealed (store s)) (sealPassword (store s))
         (sealOptions (store s))]
  ∧ same_configuration s (final (save now s))
  ∧ calls (destroy s) = []
  ∧ same_configuration s (final (destroy s)).
Proof.
  split; [apply restore_final|]. split; [apply restore_final|].
  unfold same_configuration. split; [|split; [|split; [|split]]].
  - unfold save, store_seal. simpl.
    destruct (Iron.seal _ _ _ _) as [sealed|e]; simpl; [|done].
    by destruct (writeCookie_final sealed (set_store s (store s))) as (-> & _).
  - unfold save, store_seal. simpl.
    destruct (Iron.seal _ _ _ _) as [sealed|e]; simpl; [|done].
    by rewrite writeCookie_calls.
  - unfold save, store_seal. simpl.
    destruct (Iron.seal _ _ _ _) as [sealed|e]; simpl; [|done].
    destruct (writeCookie_final sealed (set_store s (store s)))
      as (-> & -> & -> & -> & _). done.
  - apply writeCookie_calls.
  - unfold destroy.
    destruct (writeCookie_final "" (set_store s (store_clear (store s))))
      as (-> & -> & -> & -> & _). done.
Qed.

(** X9. When the primitive fails to seal, [save] raises the primitive's
    error, writes no cookie and leaves the store as it was. *)
Theorem save_propagates_seal_failure {Value} `{!Iron.t Value} `{!cookie.t}
    (now : Z) (s : IronSession Value) (e : exn) :
  Iron.seal now (unsealed (store s)) (sealPassword (store s)) (sealOptions (store s))
  = Throw e →
  result (save now s) = Throw e
  ∧ res (final (save now s)) = res s
  ∧ store (final (save now s)) = store s.
Proof.
  intros He. unfold save, store_seal. simpl. by rewrite He.
Qed.

(** A session configured with a five-character password is constructed
    without complaint; the reference primitive refuses the password when
    [save] seals, and the response keeps the one cookie it had. *)
Lemma save_propagates_seal_failure_witness :
  let s := Demo.session_of Demo.bare_request Demo.response
             (Demo.options_of (PwString "short") None None) in
  cookieName s = "sid"
  ∧ result (save 0 s)
    = Throw (Error "Password string too short (min 32 characters required)")
  ∧ set_cookie_values (res (final (save 0 s))) = [ Demo.other_cookie ].
Proof.
  intros s.
  assert (Hseal : Iron.seal 0 (unsealed (store s)) (sealPassword (store s))
                    (sealOptions (store s))
                  = Throw (Error "Password string too short (min 32 characters required)"))
    by (vm_compute; reflexivity).
  destruct (save_propagates_seal_failure 0 s _ Hseal) as (Hr & Hres & _).
  split; [reflexivity|]. split; [exact Hr|]. by rewrite Hres.
Defined.

(** X10. Two writes in a row: the second keeps everything the header
    held after the first, the first write's cookie included, whatever the
    response held at the start. *)
Theorem setResponseCookie_accumulates (r : Response) (first second : string) :
  set_cookie_values (setResponseCookie (setResponseCookie r first) second)
  = set_cookie_values (setResponseCookie r first) ++ [second]
  ∧ list.last (set_cookie_values (setResponseCookie r first)) = Some first
  ∧ ¬ blank_set_cookie (setResponseCookie r first).
Proof.
  assert (Hnb : ¬ blank_set_cookie (setResponseCookie r first)).
  { unfold blank_set_cookie, setResponseCookie. rewrite lookup_insert_eq.
    intros [?|?]; done. }
  split; [by apply setResponseCookie_values|]. split; [|exact Hnb].
  unfold set_cookie_values, setResponseCookie. rewrite lookup_insert_eq. simpl.
  apply last_snoc.
Qed.

(** ** Key rotation and the way back from a saved cookie *)

Lemma unsealPassword_of_list {Value} `{!Iron.t Value} l ttl (st : IronStore Value) :
  new_IronStore (PwList l) ttl = Ret st →
  ∀ k, unsealPassword st !! k = last_secret k l.
Proof.
  intros Hst k. apply new_IronStore_fields in Hst as (_ & _ & Hup & _).
  destruct l as [|first rest]; [done|].
  assert (Hup' : Ret (assign_all (first :: rest) ∅)
                 = Ret (unsealPassword st)) by exact Hup.
  assert (Heq : assign_all (first :: rest) ∅ = unsealPassword st) by congruence.
  rewrite <- Heq, assign_all_lookup, lookup_empty.
  by destruct (last_secret k (first :: rest)).
Qed.

(** X11. Key rotation. A token sealed by a store configured with some
    password is unsealed, to the sealed bag, by every store configured
    with a password list that still holds the sealing id with the sealing
    secret as the last entry under that id, wherever in the list it
    stands, for the same time-to-live and as long as the seal has not
    expired. *)
Theorem rotated_store_unseals_old_token {Value} `{!Iron.t Value}
    (accepts : IronSealPassword → bool) (laws : IronLaws Value accepts)
    (old : IronDenormalizedPassword) (rotated : list IdSecret) (ttl : Z)
    (sealing unsealing : IronStore Value)
    (B bag' : gmap string Value) (now now' : Z) :
  new_IronStore old ttl = Ret sealing →
  new_IronStore (PwList rotated) ttl = Ret unsealing →
  accepts (sealPassword sealing) = true →
  last_secret (id (sealPassword sealing)) rotated
  = Some (secret (sealPassword sealing)) →
  unexpired (sealOptions sealing) now now' →
  ∃ sealed,
    result (store_seal now (set_unsealed sealing B)) = Ret sealed
    ∧ result (store_unseal now' sealed (set_unsealed unsealing bag')) = Ret true
    ∧ unsealed (final (store_unseal now' sealed (set_unsealed unsealing bag'))) = B.
Proof.
  intros Hs Hu Hacc Hkept Hfresh.
  destruct (seal_accepted now B (sealPassword sealing) (sealOptions sealing) Hacc)
    as [sealed Hseal].
  exists sealed. split; [exact Hseal|].
  pose proof (unsealPassword_of_list rotated ttl unsealing Hu
                (id (sealPassword sealing))) as Hlook.
  rewrite Hkept in Hlook.
  assert (Hopts : sealOptions unsealing = sealOptions sealing).
  { apply new_IronStore_fields in Hs as (_ & _ & _ & ->).
    by apply new_IronStore_fields in Hu as (_ & _ & _ & ->). }
  pose proof (unseal_seal now now' B (sealPassword sealing) (sealOptions sealing)
                (unsealPassword unsealing) sealed Hacc Hseal Hlook Hfresh) as Hunseal.
  unfold store_unseal. simpl. rewrite Hopts, Hunseal. done.
Qed.

(** A token sealed under the single secret (id 1) is still unsealed
    after the configuration has moved to the rotation list, whose first
    entry is a newer key and whose second entry is the old one. *)
Lemma rotated_store_unseals_old_token_witness :
  ∃ sealed,
    result (store_seal 1000 (set_unsealed (Demo.store_of Demo.pw_single 3600)
                               Demo.bag)) = Ret sealed
    ∧ result (store_unseal 2000 sealed
                (set_unsealed (Demo.store_of (PwList Demo.rotation) 3600) ∅))
      = Ret true
    ∧ unsealed (final (store_unseal 2000 sealed
                         (set_unsealed (Demo.store_of (PwList Demo.rotation) 3600)
                            ∅)))
      = Demo.bag.
Proof.
  apply (rotated_store_unseals_old_token (Value := string) RefIron.accepts
           RefIron_laws Demo.pw_single Demo.rotation 3600).
  - reflexivity.
  - reflexivity.
  - vm_compute. reflexivity.
  - vm_compute. reflexivity.
  - right. vm_compute. reflexivity.
Defined.

(** X12. From [save] back to [restore]. When [save] returns, under a
    seal password for which the primitive keeps its contract, the token
    it has sealed is such that a session which reads that token from its
    request, and whose store holds the sealing secret under the sealing
    id with the same seal options, restores to [true] with the saved bag,
    by one invocation of the primitive, provided the token is not the
    empty string and has not expired. *)
Theorem saved_cookie_restores {Value} `{!Iron.t Value} `{!cookie.t}
    (accepts : IronSealPassword → bool) (laws : IronLaws Value accepts)
    (now now' : Z) (s : IronSession Value) :
  result (save now s) = Ret tt →
  accepts (sealPassword (store s)) = true →
  ∃ sealed,
    Iron.seal now (unsealed (store s)) (sealPassword (store s)) (sealOptions (store s))
    = Ret sealed
    ∧ ∀ s' : IronSession Value,
        readCookie s' = Own sealed → sealed ≠ "" →
        unsealPassword (store s') !! id (sealPassword (store s))
        = Some (secret (sealPassword (store s))) →
        sealOptions (store s') = sealOptions (store s) →
        unexpired (sealOptions (store s)) now now' →
        result (restore now' s') = Ret true
        ∧ unsealed (store (final (restore now' s'))) = unsealed (store s)
        ∧ length (calls (restore now' s')) = 1%nat.
Proof.
  intros Hsave Hacc. unfold save, store_seal in Hsave. simpl in Hsave.
  destruct (Iron.seal now (unsealed (store s)) (sealPassword (store s))
              (sealOptions (store s))) as [sealed|e] eqn:Hseal; [|done].
  exists sealed. split; [done|].
  intros s' Hread Hne Hkey Hopts Hfresh.
  pose proof (unseal_seal now now' _ _ _ (unsealPassword (store s')) sealed
                Hacc Hseal Hkey Hfresh) as Hunseal.
  unfold restore. rewrite Hread.
  apply truthy_string_spec in Hne. rewrite Hne. simpl.
  rewrite store_unseal_calls. unfold store_unseal. rewrite Hopts, Hunseal. done.
Qed.

(** A bag is saved under the rotation list; a later request brings the
    token back in its raw Cookie header, beside another cookie, and the
    session constructed for it restores the bag. *)
Lemma saved_cookie_restores_witness :
  let s := set (Demo.session_of Demo.bare_request Demo.response
                  (Demo.options_of (PwList Demo.rotation) (Some 3600) None))
               "user" "alice" in
  result (save 1000 s) = Ret tt
  ∧ ∃ sealed,
      Iron.seal (Value := string) 1000 (unsealed (store s)) (sealPassword (store s))
        (sealOptions (store s)) = Ret sealed
      ∧ let s' := Demo.session_of (Demo.header_request sealed) ∅
                    (Demo.options_of (PwList Demo.rotation) (Some 3600) None) in
        result (restore 5000 s') = Ret true
        ∧ get (final (restore 5000 s')) "user" = Read (Own "alice").
Proof.
  intros s.
  assert (Hsave : result (save 1000 s) = Ret tt) by (vm_compute; reflexivity).
  split; [exact Hsave|].
  destruct (saved_cookie_restores RefIron.accepts RefIron_laws 1000 5000 s Hsave)
    as (sealed & Hseal & Hback); [vm_compute; reflexivity|].
  exists sealed. split; [exact Hseal|].
  vm_compute in Hseal. injection Hseal as <-.
  match goal with |- let s' := ?x in _ => intros s'; specialize (Hback s') end.
  destruct Hback as (Hr & Hbag & _).
  - vm_compute. reflexivity.
  - discriminate.
  - vm_compute. reflexivity.
  - reflexivity.
  - right. vm_compute. reflexivity.
  - split; [exact Hr|]. unfold get, store_get. rewrite Hbag. reflexivity.
Defined.

(** X13. [getIronSession] raises the configuration error when the
    session cannot be constructed, without invoking the primitive. It
    hands out the constructed session, untouched and the primitive not
    invoked, when the read of the session cookie gives [undefined] or the
    empty string. With a non-empty cookie it invokes the primitive once
    and hands out the session holding the payload when the cookie unseals,
    the session with a bag without own entries when the failure is one of
    the three recoverable ones, and raises the primitive's error
    otherwise. When the cookie name is a property name of
    [Object.prototype] and no cookie is present under it, the inherited
    member is handed to the primitive, and the [TypeError] the primitive
    then raises is raised by [getIronSession]. The session it hands out
    is bound to the given request and response, and the response is as
    given. *)
Theorem getIronSession_hydrates {Value} `{!Iron.t Value} `{!cookie.t}
    (env : Env) (now : Z) (rq : Request) (rs : Response)
    (sessionOptions : option IronSessionOptions.t) :
  let out := getIronSession (Value := Value) env now rq rs sessionOptions in
  (∀ e, new_IronSession (Value := Value) env rq rs sessionOptions = Throw e →
        out = (Throw e, []))
  ∧ (∀ s0 : IronSession Value,
       new_IronSession env rq rs sessionOptions = Ret s0 →
       (readCookie s0 = Undefined ∨ readCookie s0 = Own "" → out = (Ret s0, []))
       ∧ (∀ sealed, readCookie s0 = Own sealed → sealed ≠ "" →
            snd out = [UnsealCall now sealed (unsealPassword (store s0))
                         (sealOptions (store s0))]
            ∧ (∀ payload,
                 Iron.unseal now sealed (unsealPassword (store s0))
                   (sealOptions (store s0)) = Ret payload →
                 ∃ s, fst out = Ret s ∧ unsealed (store s) = payload)
            ∧ (∀ message,
                 Iron.unseal now sealed (unsealPassword (store s0))
                   (sealOptions (store s0)) = Throw (Error message) →
                 (recoverable message →
                  ∃ s, fst out = Ret s ∧ unsealed (store s) = ∅)
                 ∧ (¬ recoverable message → fst out = Throw (Error message))))
       ∧ (∀ name, readCookie s0 = Inherited name →
            snd out = [UnsealMemberCall now name (unsealPassword (store s0))
                         (sealOptions (store s0))]
            ∧ (Iron.unseal_member now name (unsealPassword (store s0))
                 (sealOptions (store s0)) = Throw TypeError →
               fst out = Throw TypeError)))
  ∧ (∀ s, fst out = Ret s → req s = rq ∧ res s = rs).
Proof.
  intros out. subst out. unfold getIronSession.
  split; [by intros e ->|]. split.
  - intros s0 Hs0. rewrite Hs0.
    pose proof (new_IronSession_fields _ _ _ _ _ Hs0) as (_ & _ & _ & _ & pw & _ & Hst).
    apply new_IronStore_fields in Hst as (Hbag & _).
    split; [|split].
    + unfold restore. intros [-> | ->]; done.
    + intros sealed Hread Hne. apply truthy_string_spec in Hne.
      unfold restore. rewrite Hread, Hne. cbn [result final calls].
      split.
      { rewrite store_unseal_calls.
        by destruct (result (store_unseal now sealed (store s0))). }
      unfold store_unseal. split.
      * intros payload ->. simpl. by eexists.
      * intros message ->. pose proof (rethrown_recoverable message) as Hr.
        destruct (rethrown message); simpl; split.
        -- intros Hy. apply Hr in Hy. done.
        -- done.
        -- intros _. eexists. split; [done|]. done.
        -- intros Hn. exfalso. apply Hn. by apply Hr.
    + intros name Hread. unfold restore. rewrite Hread. cbn [result final calls].
      split.
      { rewrite store_unseal_member_calls.
        by destruct (result (store_unseal_member now name (store s0))). }
      unfold store_unseal_member. by intros ->.
  - intros s.
    destruct (new_IronSession env rq rs sessionOptions) as [s0|e] eqn:Hs0; [|done].
    apply new_IronSession_fields in Hs0 as (Hrq & Hrs & _).
    destruct (restore_final now s0) as (Hres & Hreq & _).
    destruct (result (restore now s0)); simpl; [|done].
    intros [= <-]. by rewrite Hres, Hreq.
Qed.

(** The cookie name [toString] on a request without cookies: the
    function [Object.prototype.toString] is handed to the primitive and
    [getIronSession] raises a [TypeError]. *)
Lemma getIronSession_hydrates_witness :
  getIronSession (Value := string)
    {[ "IRON_SESSION_COOKIE_NAME" := "toString" ]} 0
    {| cookies := Some ∅; headers := ∅ |} ∅
    (Some {| IronSessionOptions.cookieName := None;
             IronSessionOptions.cookieOptions := None;
             IronSessionOptions.password := Some Demo.pw_single;
             IronSessionOptions.ttl := None |})
  = (Throw TypeError,
     [UnsealMemberCall 0 "toString" {[ "1" := Demo.secret_a ]}
        {| SealOptions.ttl := 2592000000;
           SealOptions.timestampSkewSec := 60;
           SealOptions.localtimeOffsetMsec := 0 |}]).
Proof.
  pose proof (getIronSession_hydrates (Value := string)
                {[ "IRON_SESSION_COOKIE_NAME" := "toString" ]} 0
                {| cookies := Some ∅; headers := ∅ |} ∅
                (Some {| IronSessionOptions.cookieName := None;
                         IronSessionOptions.cookieOptions := None;
                         IronSessionOptions.password := Some Demo.pw_single;
                         IronSessionOptions.ttl := None |})) as (_ & Hs0 & _).
  vm_compute. reflexivity.
Defined.

(** ** Sequences of calls *)

Lemma same_configuration_trans {Value} (a b c : IronSession Value) :
  same_configuration a b → same_configuration b c → same_configuration a c.
Proof.
  unfold same_configuration.
  intros (-> & -> & -> & -> & -> & ->) (-> & -> & -> & -> & -> & ->). done.
Qed.

Lemma store_set_configuration {Value} `{!JsValue.t Value} (st : IronStore Value)
    key value :
  sealPassword (store_set st key value) = sealPassword st
  ∧ unsealPassword (store_set st key value) = unsealPassword st
  ∧ sealOptions (store_set st key value) = sealOptions st.
Proof.
  unfold store_set.
  destruct (String.eqb key "__proto__" && setter_reached st); [|done].
  by destruct (JsValue.kind value).
Qed.

Lemma invoke_step {Value} `{!JsValue.t Value} `{!Iron.t Value} `{!cookie.t}
    (m : Method Value) (s : IronSession Value) :
  same_configuration s (invoke m s)
  ∧ (res (invoke m s) = res s
     ∨ ∃ c, res (invoke m s) = setResponseCookie (res s) c).
Proof.
  destruct m as [key value|key| |now|now|]; simpl.
  - split; [|by left]. unfold same_configuration, set. simpl.
    destruct (store_set_configuration (store s) key value) as (-> & -> & ->).
    done.
  - split; [done|by left].
  - split; [done|by left].
  - destruct (restore_final now s) as [Hres Hcfg]. split; [done|by left].
  - unfold save, store_seal. simpl.
    destruct (Iron.seal _ _ _ _) as [sealed|e]; simpl; [|split; [done|by left]].
    destruct (writeCookie_final sealed (set_store s (store s)))
      as (Hst & Hrq & Hn & Ho & Hres).
    split; [|exact Hres]. unfold same_configuration. by rewrite Hst, Hrq, Hn, Ho.
  - unfold destroy.
    destruct (writeCookie_final "" (set_store s (store_clear (store s))))
      as (Hst & Hrq & Hn & Ho & Hres).
    split; [|exact Hres]. unfold same_configuration. by rewrite Hst, Hrq, Hn, Ho.
Qed.

Lemma setResponseCookie_accumulation_base (r : Response) (c : string) :
  ¬ blank_set_cookie r →
  ¬ blank_set_cookie (setResponseCookie r c)
  ∧ set_cookie_values (setResponseCookie r c) = set_cookie_values r ++ [c].
Proof.
  intros Hnb. split; [|by apply setResponseCookie_values].
  unfold blank_set_cookie, setResponseCookie. rewrite lookup_insert_eq.
  intros [?|?]; done.
Qed.

(** X14. Whatever methods are called on a session, in whatever order
    and with whatever outcomes, the request, the cookie name, the cookie
    attributes, the passwords and the seal options are those the session
    started with; every response header other than Set-Cookie is
    untouched; and, unless the Set-Cookie header started as the empty
    string or the number 0, the Set-Cookie values the response started
    with are still there, in their order, ahead of whatever was added. *)
Theorem invoke_all_preserves {Value} `{!JsValue.t Value} `{!Iron.t Value}
    `{!cookie.t} (ms : list (Method Value)) (s : IronSession Value) :
  same_configuration s (invoke_all ms s)
  ∧ (∀ h, h ≠ "set-cookie" → res (invoke_all ms s) !! h = res s !! h)
  ∧ (¬ blank_set_cookie (res s) →
     ¬ blank_set_cookie (res (invoke_all ms s))
     ∧ ∃ added, set_cookie_values (res (invoke_all ms s))
                = set_cookie_values (res s) ++ added).
Proof.
  revert s. induction ms as [|m ms IH]; intros s.
  - split; [done|]. split; [done|]. intros Hnb. split; [done|].
    exists []. by rewrite app_nil_r.
  - change (invoke_all (m :: ms) s) with (invoke_all ms (invoke m s)).
    destruct (IH (invoke m s)) as (Hcfg & Hother & Hvals).
    destruct (invoke_step m s) as (Hcfg1 & Hres1).
    split; [by eapply same_configuration_trans|]. split.
    + intros h Hh. rewrite Hother by done.
      destruct Hres1 as [->|[c ->]]; [done|].
      by apply setResponseCookie_values.
    + intros Hnb. destruct Hres1 as [Hsame|[c Hc]].
      * rewrite Hsame in Hvals. destruct (Hvals Hnb) as (Hnb' & added & Hadd).
        split; [done|]. exists added. by rewrite Hadd.
      * rewrite Hc in Hvals.
        destruct (setResponseCookie_accumulation_base (res s) c) as [Hnb1 Hv1]; [done|].
        destruct (Hvals Hnb1) as (Hnb' & added & Hadd).
        split; [done|]. exists (c :: added).
        rewrite Hadd, Hv1. by rewrite <- app_assoc.
Qed.

(** A session is filled, saved, destroyed and saved again on a response
    that carried the cookie [theme]: that cookie is still the first
    Set-Cookie value, three more follow it, and the session still seals
    with the configured secret. *)
Lemma invoke_all_preserves_witness :
  let s := Demo.session_of Demo.bare_request Demo.response
             (Demo.options_of Demo.pw_single None None) in
  let s' := invoke_all [ CallSet "user" "alice"; CallSave 0; CallDestroy; CallSave 9 ] s in
  sealPassword (store s') = {| id := "1"; secret := Demo.secret_a |}
  ∧ ∃ added, set_cookie_values (res s') = Demo.other_cookie :: added
             ∧ length added = 3%nat.
Proof.
  intros s s'.
  destruct (invoke_all_preserves
              [ CallSet "user" "alice"; CallSave 0; CallDestroy; CallSave 9 ] s)
    as ((_ & _ & _ & Hsp & _) & _ & Hvals).
  split; [exact Hsp|].
  destruct Hvals as (_ & added & Hadd).
  - intros [H'|H']; vm_compute in H'; discriminate H'.
  - exists added. split; [exact Hadd|].
    assert (Hlen : length (set_cookie_values (res s')) = 4%nat)
      by (vm_compute; reflexivity).
    unfold s' in Hlen. rewrite Hadd, length_app in Hlen.
    change (length (set_cookie_values (res s))) with 1%nat in Hlen. lia.
Defined.

(** ** Small time-to-live *)

(** X15. Without a non-zero max-age override, a time-to-live below 60
    seconds (0 included) gives the session cookie the negative max-age
    TTL - 60: the lower end of the derived max-age is not bounded. *)
Theorem small_ttl_negative_max_age {Value} `{!Iron.t Value}
    (env : Env) (rq : Request) (rs : Response)
    (sessionOptions : option IronSessionOptions.t) (s : IronSession Value) :
  new_IronSession env rq rs sessionOptions = Ret s →
  override_of sessionOptions = None ∨ override_of sessionOptions = Some 0 →
  resolved_ttl sessionOptions < 60 →
  ∃ maxAge, CookieSerializeOptions.maxAge (cookieOptions s) = Some maxAge
            ∧ maxAge = resolved_ttl sessionOptions - 60
            ∧ maxAge < 0
            ∧ CookieSerializeOptions.maxAge (write_options s "x") = Some maxAge.
Proof.
  intros Hs Hover Hsmall.
  apply new_IronSession_fields in Hs as (_ & _ & _ & Ho & _).
  exists (getCookieMaxAge sessionOptions). unfold write_options. simpl. rewrite Ho.
  split; [apply getCookieSerializeOptions_maxAge|].
  split; [|split; [|apply getCookieSerializeOptions_maxAge]].
  all: unfold getCookieMaxAge, MAX_TTL, TIMESTAMP_SKEW_SEC;
    destruct Hover as [-> | ->]; simpl; lia.
Qed.

(** Time-to-live 0: the cookie is written with max-age -60. *)
Lemma small_ttl_negative_max_age_witness :
  let s := Demo.session_of Demo.bare_request ∅
             (Demo.options_of Demo.pw_single (Some 0) None) in
  ∃ maxAge, CookieSerializeOptions.maxAge (cookieOptions s) = Some maxAge
            ∧ maxAge = -60.
Proof.
  intros s.
  destruct (small_ttl_negative_max_age (Value := string) ∅ Demo.bare_request ∅
              (Demo.options_of Demo.pw_single (Some 0) None) s eq_refl)
    as (maxAge & Hm & Hv & _).
  - by left.
  - reflexivity.
  - exists maxAge. split; [exact Hm | exact Hv].
Defined.
